(** * FileManager: selection and batch manipulation of directory entries

    A shallow embedding of [src/FileManager.ts].  The class keeps three
    private fields (the current directory, the entries last listed and the
    set of selected entries) and talks to three injected collaborators
    (explorer, manipulator, random provider).  Methods are embedded as
    computations of a small state-and-exception monad over a machine made of
    the object's fields, the outside world the collaborators act on, and the
    record of collaborator calls (what a jest mock keeps in [mock.calls] and
    [mock.results]).  A thrown exception keeps every mutation made before
    it, as in JavaScript. *)

From Stdlib Require Import List String Ascii ZArith Lia Bool Arith DecimalString.
Import ListNotations.
Open Scope string_scope.
Open Scope list_scope.

(** ** Data of the source *)

(** [operationType: "copy" | "move" | "delete"]. *)
Inductive OperationType := copy | move | delete.

Record FileOperationError := {
  fileName : string;
  errorMessage : string;
  operationType : OperationType
}.

(** [destinationPath?] is absent ([None]) in the result of a deletion. *)
Record OperationResult := {
  destinationPath : option string;
  errors : list FileOperationError
}.

Definition ADJECTIVES : list string := [
  "grand"; "petit"; "rouge"; "bleu"; "vert";
  "rapide"; "lent"; "brillant"; "sombre"; "clair";
  "ancien"; "nouveau"; "fort"; "doux"; "vif";
  "calme"; "noble"; "simple"; "rare"; "libre"
].

Definition NOUNS : list string := [
  "soleil"; "lune"; "etoile"; "montagne"; "riviere";
  "foret"; "ocean"; "desert"; "jardin"; "chateau";
  "dragon"; "phoenix"; "tigre"; "aigle"; "dauphin";
  "cristal"; "diamant"; "saphir"; "rubis"; "emeraude"
].

(** The private fields of the class.  [selectedEntries] is a JavaScript
    [Set<string>]: it iterates in insertion order and holds no value twice,
    so it is a list that [set_add] only ever extends by a new element. *)
Record FileManager := {
  currentDirectory : option string;
  entries : list string;
  selectedEntries : list string
}.

(** Field initialisers of the class. *)
Definition new_FileManager : FileManager :=
  {| currentDirectory := None; entries := []; selectedEntries := [] |}.

(** ** JavaScript primitives used by the class *)

(** [array.includes(x)] and [set.has(x)] on strings. *)
Definition includes (l : list string) (x : string) : bool :=
  existsb (String.eqb x) l.

(** [set.add(x)]: a value already present keeps its place. *)
Definition set_add (s : list string) (x : string) : list string :=
  if includes s x then s else s ++ [x].

(** [entries.filter((e) => e !== x)] and [set.delete(x)]. *)
Definition without (x : string) (l : list string) : list string :=
  filter (fun e => negb (String.eqb e x)) l.

(** [array[i]] inside a template literal: an index outside the array reads
    [undefined], printed as the text "undefined". *)
Definition word_at (words : list string) (i : Z) : string :=
  if (i <? 0)%Z then "undefined" else nth (Z.to_nat i) words "undefined".

(** A counter inside a template literal is printed in decimal. *)
Definition decimal (n : nat) : string :=
  NilEmpty.string_of_uint (Nat.to_uint n).

(** ** Collaborators *)

(** What a collaborator call does: it returns a value, or it throws an error
    carrying a message.  (A primitive that throws [null] or [undefined]
    instead is the subject of the second embedding of the operations,
    further down.) *)
Inductive Answer (A : Type) :=
| Ok (a : A)
| Fails (message : string).
Arguments Ok {A} a.
Arguments Fails {A} message.

(** The three injected interfaces, acting on an outside world [W] that their
    calls may read and change. *)
Class IFileSystemExplorer (W : Type) := {
  explorer_listEntries : string -> W -> Answer (list string) * W;
  explorer_exists : string -> W -> Answer bool * W;
  explorer_isDirectory : string -> W -> Answer bool * W
}.

Class IFileSystemManipulator (W : Type) := {
  manipulator_copy : string -> string -> W -> Answer unit * W;
  manipulator_move : string -> string -> W -> Answer unit * W;
  manipulator_delete : string -> W -> Answer unit * W;
  manipulator_createDirectory : string -> W -> Answer unit * W
}.

Class IRandomProvider (W : Type) := {
  random_nextInt : Z -> W -> Answer Z * W
}.

(** The two values whose properties cannot be read. *)
Inductive Nullish := null | undefined.

(** One recorded collaborator call, with its arguments and its answer; the
    last case records a manipulator primitive that threw [null] or
    [undefined] instead of an error. *)
Inductive Call :=
| ListEntriesCall (directoryPath : string) (r : Answer (list string))
| ExistsCall (filePath : string) (r : Answer bool)
| NextIntCall (max : Z) (r : Answer Z)
| CopyCall (source destination : string) (r : Answer unit)
| MoveCall (source destination : string) (r : Answer unit)
| DeleteCall (filePath : string) (r : Answer unit)
| CreateDirectoryCall (dirPath : string) (r : Answer unit)
| NullishThrow (kind : OperationType) (arguments : list string) (value : Nullish).

Definition is_exists_call (c : Call) : bool :=
  match c with ExistsCall _ _ => true | _ => false end.

Definition is_nextInt_call (c : Call) : bool :=
  match c with NextIntCall _ _ => true | _ => false end.

Definition is_manipulator_call (c : Call) : bool :=
  match c with
  | CopyCall _ _ _ | MoveCall _ _ _ | DeleteCall _ _ | CreateDirectoryCall _ _
  | NullishThrow _ _ _ => true
  | _ => false
  end.

(** ** Exceptions *)

(** What a method can throw: the two errors the class raises itself, the
    [TypeError] of [path.join] on a [null] current directory (the [!]
    assertions are erased at run time), and an error of a collaborator. *)
Inductive Thrown :=
| NothingSelected
| EntryNotFound (entryName : string)
| NullDirectory
| Raised (message : string).

(** The double quote, as a string. *)
Definition quote : string := String (ascii_of_nat 34) EmptyString.

(** [e.message]. *)
Definition message_of (e : Thrown) : string :=
  match e with
  | NothingSelected => "Aucun fichier sélectionné."
  | EntryNotFound entryName =>
      ("L'entrée '" ++ entryName ++ "' n'existe pas dans le répertoire courant.")%string
  | NullDirectory =>
      ("The " ++ quote ++ "path" ++ quote
       ++ " argument must be of type string. Received null")%string
  | Raised message => message
  end.

(** ** The monad of methods *)

(** How a call ends: it returns, it throws, or (for the numbering loop of
    [resolveDestination], which has no bound) it is still running when the
    fuel given to it is spent. *)
Inductive Completion (A : Type) :=
| Returns (a : A)
| Throws (e : Thrown)
| Diverges.
Arguments Returns {A} a.
Arguments Throws {A} e.
Arguments Diverges {A}.

Section Monad.

Context {W : Type}.

(** The object, the world of its collaborators, and the calls made so far
    (oldest first). *)
Record Machine := {
  this : FileManager;
  world : W;
  calls : list Call
}.

Definition M (A : Type) : Type := Machine -> Completion A * Machine.

Definition ret {A} (a : A) : M A := fun m => (Returns a, m).

Definition bind {A B} (c : M A) (k : A -> M B) : M B :=
  fun m =>
    match c m with
    | (Returns a, m') => k a m'
    | (Throws e, m') => (Throws e, m')
    | (Diverges, m') => (Diverges, m')
    end.

Definition throw {A} (e : Thrown) : M A := fun m => (Throws e, m).

Definition diverge {A} : M A := fun m => (Diverges, m).

(** [try { body } catch (e) { handler }]: the handler starts from the state
    the body had reached when it threw. *)
Definition try_catch {A} (body : M A) (handler : Thrown -> M A) : M A :=
  fun m =>
    match body m with
    | (Throws e, m') => handler e m'
    | r => r
    end.

Definition get_this : M FileManager := fun m => (Returns (this m), m).

Definition set_this (f : FileManager -> FileManager) : M unit :=
  fun m => (Returns tt, {| this := f (this m); world := world m; calls := calls m |}).

(** A collaborator call: the world moves on, the call is recorded, and a
    failing answer is thrown. *)
Definition invoke {A} (op : W -> Answer A * W) (record : Answer A -> Call) : M A :=
  fun m =>
    let (r, w') := op (world m) in
    let m' := {| this := this m; world := w'; calls := calls m ++ [record r] |} in
    match r with
    | Ok a => (Returns a, m')
    | Fails message => (Throws (Raised message), m')
    end.

End Monad.

Arguments Machine W : clear implicits.
Arguments M W A : clear implicits.

Declare Scope method_scope.
Delimit Scope method_scope with method.
Notation "x <- c ;; k" := (bind c (fun x => k))
  (at level 61, c at next level, right associativity) : method_scope.
Notation "c ;; k" := (bind c (fun _ => k))
  (at level 61, right associativity) : method_scope.
Open Scope method_scope.

(** Assignments to the fields. *)
Definition with_currentDirectory (d : option string) (fm : FileManager) :=
  {| currentDirectory := d; entries := entries fm; selectedEntries := selectedEntries fm |}.

Definition with_entries (es : list string) (fm : FileManager) :=
  {| currentDirectory := currentDirectory fm; entries := es; selectedEntries := selectedEntries fm |}.

Definition with_selectedEntries (sel : list string) (fm : FileManager) :=
  {| currentDirectory := currentDirectory fm; entries := entries fm; selectedEntries := sel |}.

(** The public methods of the class, as requests. *)
Inductive Request :=
| ListEntries (directoryPath : string)
| GetEntries
| GetCurrentDirectory
| Select (entryName : string)
| Deselect (entryName : string)
| SelectAll
| DeselectAll
| GetSelectedEntries
| IsSelected (entryName : string)
| CopySelection (destinationPath : option string)
| MoveSelection (destinationPath : option string)
| DeleteSelection.

(** One attempt of the destination generator as its collaborators answered
    it: the two numbers drawn and whether the candidate exists. *)
Record Attempt := {
  adjective_draw : Z;
  noun_draw : Z;
  collides : bool
}.

(** The candidate name an attempt forms. *)
Definition candidate (a : Attempt) : string :=
  (word_at ADJECTIVES (adjective_draw a) ++ "-" ++ word_at NOUNS (noun_draw a))%string.

(** The name the [for] loop holds after the attempts of [script], starting
    from [name]. *)
Definition last_candidate (script : list Attempt) (name : string) : string :=
  last (map candidate script) name.

(** ** The class *)

Section Engine.

Context {W : Type}.
Context {explorer : IFileSystemExplorer W}.
Context {manipulator : IFileSystemManipulator W}.
Context {random : IRandomProvider W}.

(** [path.join] of Node, taken as given. *)
Variable path_join : string -> string -> string.

Definition call_listEntries (directoryPath : string) : M W (list string) :=
  invoke (explorer_listEntries directoryPath) (ListEntriesCall directoryPath).

Definition call_exists (filePath : string) : M W bool :=
  invoke (explorer_exists filePath) (ExistsCall filePath).

Definition call_nextInt (max : Z) : M W Z :=
  invoke (random_nextInt max) (NextIntCall max).

Definition call_copy (source destination : string) : M W unit :=
  invoke (manipulator_copy source destination) (CopyCall source destination).

Definition call_move (source destination : string) : M W unit :=
  invoke (manipulator_move source destination) (MoveCall source destination).

Definition call_delete (filePath : string) : M W unit :=
  invoke (manipulator_delete filePath) (DeleteCall filePath).

Definition call_createDirectory (dirPath : string) : M W unit :=
  invoke (manipulator_createDirectory dirPath) (CreateDirectoryCall dirPath).

(** [path.join(this.currentDirectory!, name)]: [path.join] throws a
    [TypeError] on a [null] argument. *)
Definition join_current (name : string) : M W string :=
  fm <- get_this ;;
  match currentDirectory fm with
  | Some dir => ret (path_join dir name)
  | None => throw NullDirectory
  end.

(** *** Enumeration *)

Definition listEntries (directoryPath : string) : M W (list string) :=
  set_this (with_currentDirectory (Some directoryPath)) ;;
  listed <- call_listEntries directoryPath ;;
  set_this (with_entries listed) ;;
  set_this (with_selectedEntries []) ;;
  fm <- get_this ;;
  ret (entries fm).

Definition getEntries : M W (list string) :=
  fm <- get_this ;; ret (entries fm).

Definition getCurrentDirectory : M W (option string) :=
  fm <- get_this ;; ret (currentDirectory fm).

(** *** Selection *)

Definition select (entryName : string) : M W unit :=
  fm <- get_this ;;
  if negb (includes (entries fm) entryName)
  then throw (EntryNotFound entryName)
  else set_this (fun fm => with_selectedEntries (set_add (selectedEntries fm) entryName) fm).

Definition deselect (entryName : string) : M W unit :=
  set_this (fun fm => with_selectedEntries (without entryName (selectedEntries fm)) fm).

Definition selectAll : M W unit :=
  set_this (fun fm => with_selectedEntries (fold_left set_add (entries fm) (selectedEntries fm)) fm).

Definition deselectAll : M W unit :=
  set_this (with_selectedEntries []).

Definition getSelectedEntries : M W (list string) :=
  fm <- get_this ;; ret (selectedEntries fm).

Definition isSelected (entryName : string) : M W bool :=
  fm <- get_this ;; ret (includes (selectedEntries fm) entryName).

(** *** Destination resolution *)

(** The [for] loop of [resolveDestination], with [remaining = 10 - attempt].
    [inl fullPath] is the [return] from inside the loop; [inr name] is the
    loop running to its end, [name] holding the last name generated. *)
Fixpoint random_attempts (remaining : nat) (name : string) : M W (string + string) :=
  match remaining with
  | O => ret (inr name)
  | S remaining' =>
      i <- call_nextInt (Z.of_nat (List.length ADJECTIVES)) ;;
      j <- call_nextInt (Z.of_nat (List.length NOUNS)) ;;
      let name := (word_at ADJECTIVES i ++ "-" ++ word_at NOUNS j)%string in
      fullPath <- join_current name ;;
      taken <- call_exists fullPath ;;
      if negb taken then ret (inl fullPath) else random_attempts remaining' name
  end.

(** The [do ... while] loop and the [return] after it.  The loop has no
    bound in the source: [fuel] bounds the number of its iterations here. *)
Fixpoint number_name (fuel : nat) (name : string) (counter : nat) : M W string :=
  match fuel with
  | O => diverge
  | S fuel' =>
      let numberedName := (name ++ "-" ++ decimal counter)%string in
      probed <- join_current numberedName ;;
      taken <- call_exists probed ;;
      if taken then number_name fuel' name (S counter)
      else join_current numberedName
  end.

(** [if (destinationPath)] holds for a string that is not empty; [None] is
    the argument left out. *)
Definition resolveDestination (fuel : nat) (destinationPath : option string) : M W string :=
  match destinationPath with
  | Some (String c rest) => ret (String c rest)
  | _ =>
      r <- random_attempts 10 "" ;;
      match r with
      | inl fullPath => ret fullPath
      | inr name => number_name fuel name 1
      end
  end.

(** *** Operations *)

Definition failure (entry : string) (e : Thrown) (kind : OperationType) : FileOperationError :=
  {| fileName := entry; errorMessage := message_of e; operationType := kind |}.

(** The three [for (const entry of [...this.selectedEntries])] loops, over
    the snapshot of the selection, with the local arrays [errors] and
    [succeeded] as accumulators. *)
Fixpoint copy_each (resolved : string) (snapshot : list string)
    (errors : list FileOperationError) (succeeded : list string)
  : M W (list FileOperationError * list string) :=
  match snapshot with
  | [] => ret (errors, succeeded)
  | entry :: rest =>
      source <- join_current entry ;;
      let target := path_join resolved entry in
      acc <- try_catch
               (call_copy source target ;;
                ret (errors, succeeded ++ [entry]))
               (fun e => ret (errors ++ [failure entry e copy], succeeded)) ;;
      copy_each resolved rest (fst acc) (snd acc)
  end.

Fixpoint move_each (resolved : string) (snapshot : list string)
    (errors : list FileOperationError) (succeeded : list string)
  : M W (list FileOperationError * list string) :=
  match snapshot with
  | [] => ret (errors, succeeded)
  | entry :: rest =>
      source <- join_current entry ;;
      let target := path_join resolved entry in
      acc <- try_catch
               (call_move source target ;;
                set_this (fun fm => with_entries (without entry (entries fm)) fm) ;;
                ret (errors, succeeded ++ [entry]))
               (fun e => ret (errors ++ [failure entry e move], succeeded)) ;;
      move_each resolved rest (fst acc) (snd acc)
  end.

Fixpoint delete_each (snapshot : list string)
    (errors : list FileOperationError) (succeeded : list string)
  : M W (list FileOperationError * list string) :=
  match snapshot with
  | [] => ret (errors, succeeded)
  | entry :: rest =>
      fullPath <- join_current entry ;;
      acc <- try_catch
               (call_delete fullPath ;;
                set_this (fun fm => with_entries (without entry (entries fm)) fm) ;;
                ret (errors, succeeded ++ [entry]))
               (fun e => ret (errors ++ [failure entry e delete], succeeded)) ;;
      delete_each rest (fst acc) (snd acc)
  end.

(** [for (const s of succeeded) this.selectedEntries.delete(s)]. *)
Definition deselect_each (succeeded : list string) : M W unit :=
  set_this (fun fm =>
    with_selectedEntries (fold_left (fun sel s => without s sel) succeeded (selectedEntries fm)) fm).

(** The two statements that open [copySelection] and [moveSelection] after
    the guard: resolve the destination, then create it. *)
Definition prepare_destination (fuel : nat) (destinationPath : option string) : M W string :=
  resolved <- resolveDestination fuel destinationPath ;;
  call_createDirectory resolved ;;
  ret resolved.

Definition copySelection (fuel : nat) (destinationPath : option string) : M W OperationResult :=
  fm <- get_this ;;
  if Nat.eqb (List.length (selectedEntries fm)) 0 then throw NothingSelected else
  resolved <- resolveDestination fuel destinationPath ;;
  call_createDirectory resolved ;;
  fm <- get_this ;;
  acc <- copy_each resolved (selectedEntries fm) [] [] ;;
  deselect_each (snd acc) ;;
  ret {| destinationPath := Some resolved; errors := fst acc |}.

Definition moveSelection (fuel : nat) (destinationPath : option string) : M W OperationResult :=
  fm <- get_this ;;
  if Nat.eqb (List.length (selectedEntries fm)) 0 then throw NothingSelected else
  resolved <- resolveDestination fuel destinationPath ;;
  call_createDirectory resolved ;;
  fm <- get_this ;;
  acc <- move_each resolved (selectedEntries fm) [] [] ;;
  deselect_each (snd acc) ;;
  ret {| destinationPath := Some resolved; errors := fst acc |}.

Definition deleteSelection : M W OperationResult :=
  fm <- get_this ;;
  if Nat.eqb (List.length (selectedEntries fm)) 0 then throw NothingSelected else
  acc <- delete_each (selectedEntries fm) [] [] ;;
  deselect_each (snd acc) ;;
  ret {| destinationPath := None; errors := fst acc |}.

(** *** The public interface *)

(** A call of a public method whose returned value is dropped. *)
Definition ignore {A} (c : M W A) : M W unit := _ <- c ;; ret tt.

Definition perform (fuel : nat) (r : Request) : M W unit :=
  match r with
  | ListEntries directoryPath => ignore (listEntries directoryPath)
  | GetEntries => ignore getEntries
  | GetCurrentDirectory => ignore getCurrentDirectory
  | Select entryName => select entryName
  | Deselect entryName => deselect entryName
  | SelectAll => selectAll
  | DeselectAll => deselectAll
  | GetSelectedEntries => ignore getSelectedEntries
  | IsSelected entryName => ignore (isSelected entryName)
  | CopySelection destinationPath => ignore (copySelection fuel destinationPath)
  | MoveSelection destinationPath => ignore (moveSelection fuel destinationPath)
  | DeleteSelection => ignore deleteSelection
  end.

(** The states a caller can observe: a fresh object, then any sequence of
    public calls, whatever way each one ends, with the outside world free to
    change between two calls. *)
Inductive reachable : Machine W -> Prop :=
| reachable_new (w : W) :
    reachable {| this := new_FileManager; world := w; calls := [] |}
| reachable_perform (m : Machine W) (fuel : nat) (r : Request) :
    reachable m -> reachable (snd (perform fuel r m))
| reachable_world (m : Machine W) (w : W) :
    reachable m -> reachable {| this := this m; world := w; calls := calls m |}.

(** *** Answers of the collaborators to a destination resolution *)

(** The collaborators answer the attempts of the [for] loop as [script]
    says, one after the other, taking the world from [w] to [w']: two draws
    and the existence check of the candidate they form in directory [d]. *)
Inductive attempts_answer (d : string) : W -> list Attempt -> W -> Prop :=
| attempts_done (w : W) : attempts_answer d w [] w
| attempts_next (w w1 w2 w3 w' : W) (a : Attempt) (script : list Attempt) :
    random_nextInt (Z.of_nat (List.length ADJECTIVES)) w = (Ok (adjective_draw a), w1) ->
    random_nextInt (Z.of_nat (List.length NOUNS)) w1 = (Ok (noun_draw a), w2) ->
    explorer_exists (path_join d (candidate a)) w2 = (Ok (collides a), w3) ->
    attempts_answer d w3 script w' ->
    attempts_answer d w (a :: script) w'.

(** The explorer answers the existence checks of the numbered names
    [name-counter], [name-(counter+1)], ... as [taken] says. *)
Inductive probes_answer (d name : string) : nat -> W -> list bool -> W -> Prop :=
| probes_done (counter : nat) (w : W) : probes_answer d name counter w [] w
| probes_next (counter : nat) (w w1 w' : W) (t : bool) (taken : list bool) :
    explorer_exists (path_join d (name ++ "-" ++ decimal counter)%string) w = (Ok t, w1) ->
    probes_answer d name (S counter) w1 taken w' ->
    probes_answer d name counter w (t :: taken) w'.

(** The calls these answers are recorded as. *)
Definition attempt_calls (d : string) (script : list Attempt) : list Call :=
  flat_map (fun a =>
    [NextIntCall (Z.of_nat (List.length ADJECTIVES)) (Ok (adjective_draw a));
     NextIntCall (Z.of_nat (List.length NOUNS)) (Ok (noun_draw a));
     ExistsCall (path_join d (candidate a)) (Ok (collides a))]) script.

Fixpoint probe_calls (d name : string) (counter : nat) (taken : list bool) : list Call :=
  match taken with
  | [] => []
  | t :: taken' =>
      ExistsCall (path_join d (name ++ "-" ++ decimal counter)%string) (Ok t)
      :: probe_calls d name (S counter) taken'
  end.

(** *** Vocabulary of the proofs *)

(** A computation that leaves the fields of the object as they are. *)
Definition keeps_this {A} (c : M W A) : Prop :=
  forall m, this (snd (c m)) = this m.

(** A computation that, given a current directory, never dereferences a
    [null] one. *)
Definition never_null {A} (c : M W A) : Prop :=
  forall m, currentDirectory (this m) <> None -> fst (c m) <> Throws NullDirectory.

End Engine.

Arguments keeps_this W {A} c.
Arguments never_null W {A} c.

(** ** The operations under a manipulator that throws any value

    [IFileSystemManipulator] above takes a failing primitive to throw an
    error carrying a message.  JavaScript lets [throw] throw any value, and
    the [catch] blocks of the three loops read [e.message]: on an error
    object this is its message; on [null] or [undefined] the read itself
    throws a [TypeError], inside the [catch], so out of the method.  The
    operations are embedded here a second time, for a manipulator whose
    primitives may also throw these two values. *)

(** What one of the primitives called inside a [try] does. *)
Inductive Outcome :=
| Done
| ThrewError (message : string)
| ThrewNullish (value : Nullish).

Class IThrowingManipulator (W : Type) := {
  throwing_copy : string -> string -> W -> Outcome * W;
  throwing_move : string -> string -> W -> Outcome * W;
  throwing_delete : string -> W -> Outcome * W;
  throwing_createDirectory : string -> W -> Answer unit * W
}.

(** The message of the [TypeError] of [e.message] on [null] or
    [undefined]. *)
Definition unreadable (value : Nullish) : string :=
  ("Cannot read properties of "
   ++ match value with null => "null" | undefined => "undefined" end
   ++ " (reading 'message')")%string.

(** How the call of a primitive is recorded. *)
Definition recorded (kind : OperationType) (arguments : list string)
    (regular : Answer unit -> Call) (o : Outcome) : Call :=
  match o with
  | Done => regular (Ok tt)
  | ThrewError message => regular (Fails message)
  | ThrewNullish value => NullishThrow kind arguments value
  end.

(** A manipulator that throws errors only, as one that may throw anything. *)
Definition outcome_of (r : Answer unit) : Outcome :=
  match r with
  | Ok _ => Done
  | Fails message => ThrewError message
  end.

Definition as_throwing {W : Type} (manipulator : IFileSystemManipulator W)
  : IThrowingManipulator W :=
  {| throwing_copy source destination w :=
       (outcome_of (fst (manipulator_copy source destination w)),
        snd (manipulator_copy source destination w));
     throwing_move source destination w :=
       (outcome_of (fst (manipulator_move source destination w)),
        snd (manipulator_move source destination w));
     throwing_delete filePath w :=
       (outcome_of (fst (manipulator_delete filePath w)),
        snd (manipulator_delete filePath w));
     throwing_createDirectory := manipulator_createDirectory |}.

Section Throwing.

Context {W : Type}.
Context {explorer : IFileSystemExplorer W}.
Context {primitives : IThrowingManipulator W}.
Context {random : IRandomProvider W}.
Variable path_join : string -> string -> string.

(** The call of a primitive inside a [try]: the world moves on, the call is
    recorded, and what it did is looked at by the code after it. *)
Definition attempt (op : W -> Outcome * W) (record : Outcome -> Call) : M W Outcome :=
  fun m =>
    let (o, w') := op (world m) in
    (Returns o, {| this := this m; world := w'; calls := calls m ++ [record o] |}).

(** The three loops.  After the primitive: the rest of the [try] block when
    it returned; the [catch] block when it threw, which pushes the error
    with [e.message], or throws when [e.message] cannot be read. *)
Fixpoint copy_each_throwing (resolved : string) (snapshot : list string)
    (errors : list FileOperationError) (succeeded : list string)
  : M W (list FileOperationError * list string) :=
  match snapshot with
  | [] => ret (errors, succeeded)
  | entry :: rest =>
      source <- join_current path_join entry ;;
      let target := path_join resolved entry in
      o <- attempt (throwing_copy source target)
                   (recorded copy [source; target] (CopyCall source target)) ;;
      match o with
      | Done => copy_each_throwing resolved rest errors (succeeded ++ [entry])
      | ThrewError message =>
          copy_each_throwing resolved rest
            (errors ++ [{| fileName := entry; errorMessage := message;
                           operationType := copy |}]) succeeded
      | ThrewNullish value => throw (Raised (unreadable value))
      end
  end.

Fixpoint move_each_throwing (resolved : string) (snapshot : list string)
    (errors : list FileOperationError) (succeeded : list string)
  : M W (list FileOperationError * list string) :=
  match snapshot with
  | [] => ret (errors, succeeded)
  | entry :: rest =>
      source <- join_current path_join entry ;;
      let target := path_join resolved entry in
      o <- attempt (throwing_move source target)
                   (recorded move [source; target] (MoveCall source target)) ;;
      match o with
      | Done =>
          set_this (fun fm => with_entries (without entry (entries fm)) fm) ;;
          move_each_throwing resolved rest errors (succeeded ++ [entry])
      | ThrewError message =>
          move_each_throwing resolved rest
            (errors ++ [{| fileName := entry; errorMessage := message;
                           operationType := move |}]) succeeded
      | ThrewNullish value => throw (Raised (unreadable value))
      end
  end.

Fixpoint delete_each_throwing (snapshot : list string)
    (errors : list FileOperationError) (succeeded : list string)
  : M W (list FileOperationError * list string) :=
  match snapshot with
  | [] => ret (errors, succeeded)
  | entry :: rest =>
      fullPath <- join_current path_join entry ;;
      o <- attempt (throwing_delete fullPath)
                   (recorded delete [fullPath] (DeleteCall fullPath)) ;;
      match o with
      | Done =>
          set_this (fun fm => with_entries (without entry (entries fm)) fm) ;;
          delete_each_throwing rest errors (succeeded ++ [entry])
      | ThrewError message =>
          delete_each_throwing rest
            (errors ++ [{| fileName := entry; errorMessage := message;
                           operationType := delete |}]) succeeded
      | ThrewNullish value => throw (Raised (unreadable value))
      end
  end.

Definition prepare_destination_throwing (fuel : nat) (destinationPath : option string)
  : M W string :=
  resolved <- resolveDestination path_join fuel destinationPath ;;
  invoke (throwing_createDirectory resolved) (CreateDirectoryCall resolved) ;;
  ret resolved.

Definition copySelection_throwing (fuel : nat) (destinationPath : option string)
  : M W OperationResult :=
  fm <- get_this ;;
  if Nat.eqb (List.length (selectedEntries fm)) 0 then throw NothingSelected else
  resolved <- prepare_destination_throwing fuel destinationPath ;;
  fm <- get_this ;;
  acc <- copy_each_throwing resolved (selectedEntries fm) [] [] ;;
  deselect_each (snd acc) ;;
  ret {| destinationPath := Some resolved; errors := fst acc |}.

Definition moveSelection_throwing (fuel : nat) (destinationPath : option string)
  : M W OperationResult :=
  fm <- get_this ;;
  if Nat.eqb (List.length (selectedEntries fm)) 0 then throw NothingSelected else
  resolved <- prepare_destination_throwing fuel destinationPath ;;
  fm <- get_this ;;
  acc <- move_each_throwing resolved (selectedEntries fm) [] [] ;;
  deselect_each (snd acc) ;;
  ret {| destinationPath := Some resolved; errors := fst acc |}.

Definition deleteSelection_throwing : M W OperationResult :=
  fm <- get_this ;;
  if Nat.eqb (List.length (selectedEntries fm)) 0 then throw NothingSelected else
  acc <- delete_each_throwing (selectedEntries fm) [] [] ;;
  deselect_each (snd acc) ;;
  ret {| destinationPath := None; errors := fst acc |}.

End Throwing.

(** ** The HTTP routes of [src/app.ts]

    Each route handler is a computation over the one [FileManager] of the
    module.  A request is read as the field the handler takes from it
    ([req.query.path], [name] of [req.body], [req.body?.destination]), absent
    when the field is [undefined]; a response is the status given to
    [res.status] (200 when the handler calls [res.json] alone) and the
    object given to [res.json]. *)

(** [currentState()]: the three getters. *)
Record CurrentState := {
  state_currentDirectory : option string;
  state_entries : list string;
  state_selected : list string
}.

(** The objects the handlers send. *)
Inductive Body :=
| ErrorBody (error : string)
| StateBody (state : CurrentState)
| SelectedBody (selected : list string)
| ResultBody (resultPath : option string) (resultErrors : list FileOperationError)
    (state : CurrentState).

Record Response := {
  status : nat;
  body : Body
}.

Inductive HttpRequest :=
| GetFiles (path : option string)
| GetCurrent
| PostSelect (name : option string)
| PostDeselect (name : option string)
| PostSelectAll
| PostDeselectAll
| PostCopy (destination : option string)
| PostMove (destination : option string)
| PostDelete.

(** [!value] on a field that is a string or [undefined]. *)
Definition falsy (value : option string) : bool :=
  match value with
  | Some (String _ _) => false
  | _ => true
  end.

(** The argument a handler passes on once [!value] was false. *)
Definition field (value : option string) : string :=
  match value with
  | Some text => text
  | None => ""
  end.

Section Server.

Context {W : Type}.
Context {explorer : IFileSystemExplorer W}.
Context {manipulator : IFileSystemManipulator W}.
Context {random : IRandomProvider W}.
Variable path_join : string -> string -> string.

Definition currentState : M W CurrentState :=
  d <- getCurrentDirectory ;;
  es <- getEntries ;;
  sel <- getSelectedEntries ;;
  ret {| state_currentDirectory := d; state_entries := es; state_selected := sel |}.

Definition respond (code : nat) (b : Body) : M W Response :=
  ret {| status := code; body := b |}.

(** [GET /api/files?path=<directory>]. *)
Definition get_files (path : option string) : M W Response :=
  if falsy path then respond 400 (ErrorBody "Le paramètre 'path' est requis.")
  else
    try_catch
      (listEntries (field path) ;;
       state <- currentState ;;
       respond 200 (StateBody state))
      (fun e => respond 404 (ErrorBody (message_of e))).

(** [GET /api/files/current]. *)
Definition get_current : M W Response :=
  state <- currentState ;;
  respond 200 (StateBody state).

(** [POST /api/files/select]. *)
Definition post_select (name : option string) : M W Response :=
  if falsy name then respond 400 (ErrorBody "Le champ 'name' est requis.")
  else
    try_catch
      (select (field name) ;;
       sel <- getSelectedEntries ;;
       respond 200 (SelectedBody sel))
      (fun e => respond 400 (ErrorBody (message_of e))).

(** [POST /api/files/deselect]. *)
Definition post_deselect (name : option string) : M W Response :=
  if falsy name then respond 400 (ErrorBody "Le champ 'name' est requis.")
  else
    deselect (field name) ;;
    sel <- getSelectedEntries ;;
    respond 200 (SelectedBody sel).

(** [POST /api/files/select-all]. *)
Definition post_select_all : M W Response :=
  selectAll ;;
  sel <- getSelectedEntries ;;
  respond 200 (SelectedBody sel).

(** [POST /api/files/deselect-all]. *)
Definition post_deselect_all : M W Response :=
  deselectAll ;;
  sel <- getSelectedEntries ;;
  respond 200 (SelectedBody sel).

(** The body of the three operation routes:
    [{ destinationPath, errors, ...currentState() }]. *)
Definition respond_result (result : OperationResult) : M W Response :=
  state <- currentState ;;
  respond 200 (ResultBody (destinationPath result) (errors result) state).

(** [POST /api/files/copy]. *)
Definition post_copy (fuel : nat) (destination : option string) : M W Response :=
  try_catch
    (result <- copySelection path_join fuel destination ;;
     respond_result result)
    (fun e => respond 400 (ErrorBody (message_of e))).

(** [POST /api/files/move]. *)
Definition post_move (fuel : nat) (destination : option string) : M W Response :=
  try_catch
    (result <- moveSelection path_join fuel destination ;;
     respond_result result)
    (fun e => respond 400 (ErrorBody (message_of e))).

(** [POST /api/files/delete]. *)
Definition post_delete : M W Response :=
  try_catch
    (result <- deleteSelection path_join ;;
     respond_result result)
    (fun e => respond 400 (ErrorBody (message_of e))).

Definition handle (fuel : nat) (request : HttpRequest) : M W Response :=
  match request with
  | GetFiles path => get_files path
  | GetCurrent => get_current
  | PostSelect name => post_select name
  | PostDeselect name => post_deselect name
  | PostSelectAll => post_select_all
  | PostDeselectAll => post_deselect_all
  | PostCopy destination => post_copy fuel destination
  | PostMove destination => post_move fuel destination
  | PostDelete => post_delete
  end.

(** *** Further vocabulary of the proofs *)

(** A computation that calls nothing but [nextInt], at most [draws] times,
    and [exists], at most [checks] times. *)
Definition probes_within (draws checks : nat) {A} (c : M W A) : Prop :=
  forall m, exists new,
    calls (snd (c m)) = calls m ++ new /\
    Forall (fun call => is_nextInt_call call || is_exists_call call = true) new /\
    List.length (filter is_nextInt_call new) <= draws /\
    List.length (filter is_exists_call new) <= checks.

End Server.

Arguments probes_within W draws checks {A} c.

(** ** Vocabulary of the statements *)

(** A batch is read off as the list of the entries attempted, each with
    the answer of its manipulator primitive: the errors it reports and the
    entries it succeeded on. *)

Definition failures (kind : OperationType) (att : list (string * Answer unit))
  : list FileOperationError :=
  flat_map (fun p => match snd p with
                     | Ok _ => []
                     | Fails message =>
                         [{| fileName := fst p; errorMessage := message;
                             operationType := kind |}]
                     end) att.

Definition successes (att : list (string * Answer unit)) : list string :=
  flat_map (fun p => match snd p with Ok _ => [fst p] | Fails _ => [] end) att.

(** A state as the class keeps it: the selection holds no name twice and
    only names of the entries. *)
Definition consistent (fm : FileManager) : Prop :=
  NoDup (selectedEntries fm) /\ incl (selectedEntries fm) (entries fm).


(** What an operation cut short by a nullish throw leaves of the fields
    [before]: the current directory and the selection as they were, and the
    entries without some of the selected names. *)
Definition shortened (before after : FileManager) : Prop :=
  currentDirectory after = currentDirectory before /\
  selectedEntries after = selectedEntries before /\
  exists gone,
    incl gone (selectedEntries before) /\
    entries after = fold_left (fun acc s => without s acc) gone (entries before).

(** The invariant of the fields: a consistent state whose entries, when
    there are any, come from a directory. *)
Definition invariant (fm : FileManager) : Prop :=
  consistent fm /\ (entries fm <> [] -> currentDirectory fm <> None).

(** Draws as the random provider is meant to give them: indices of the
    two word lists. *)
Definition in_range (a : Attempt) : Prop :=
  (0 <= adjective_draw a < Z.of_nat (List.length ADJECTIVES))%Z /\
  (0 <= noun_draw a < Z.of_nat (List.length NOUNS))%Z.

(** The attempt drawing the indices [i] and [j]. *)
Definition drawing (i j : nat) : Attempt :=
  {| adjective_draw := Z.of_nat i; noun_draw := Z.of_nat j; collides := false |}.

(** Whether, over all the pairs of indices of the word lists, equal names
    only come from equal pairs. *)
Definition names_apart : bool :=
  let indices := seq 0 (List.length ADJECTIVES) in
  let indices' := seq 0 (List.length NOUNS) in
  forallb (fun i => forallb (fun j => forallb (fun i' => forallb (fun j' =>
    implb (String.eqb (candidate (drawing i j)) (candidate (drawing i' j')))
          (Nat.eqb i i' && Nat.eqb j j'))
    indices') indices) indices') indices.

(** ** Test doubles

    Collaborators in the manner of the jest mocks of the unit tests: queues
    of answers consumed one per call ([mockReturnValueOnce]) with a default
    once the queue is empty, and manipulator primitives that throw on
    chosen source paths. *)

Record Mock := {
  mock_listing : string -> Answer (list string);
  mock_exists : list bool;
  mock_nextInt : list Z;
  mock_refused : list string;
  mock_createDirectory : Answer unit
}.

Definition mock_transfer (source : string) (w : Mock) : Answer unit * Mock :=
  (if includes (mock_refused w) source then Fails "Permission refusée" else Ok tt, w).

#[export] Instance MockExplorer : IFileSystemExplorer Mock := {
  explorer_listEntries directoryPath w := (mock_listing w directoryPath, w);
  explorer_exists _ w :=
    (Ok (hd false (mock_exists w)),
     {| mock_listing := mock_listing w; mock_exists := tl (mock_exists w);
        mock_nextInt := mock_nextInt w; mock_refused := mock_refused w;
        mock_createDirectory := mock_createDirectory w |});
  explorer_isDirectory _ w := (Ok false, w)
}.

#[export] Instance MockManipulator : IFileSystemManipulator Mock := {
  manipulator_copy source _ w := mock_transfer source w;
  manipulator_move source _ w := mock_transfer source w;
  manipulator_delete filePath w := mock_transfer filePath w;
  manipulator_createDirectory _ w := (mock_createDirectory w, w)
}.

#[export] Instance MockRandom : IRandomProvider Mock := {
  random_nextInt _ w :=
    (Ok (hd 0%Z (mock_nextInt w)),
     {| mock_listing := mock_listing w; mock_exists := mock_exists w;
        mock_nextInt := tl (mock_nextInt w); mock_refused := mock_refused w;
        mock_createDirectory := mock_createDirectory w |})
}.

(** [path.join] on a directory without trailing separator and a plain name. *)
Definition slash_join (dir name : string) : string := (dir ++ "/" ++ name)%string.

(** A directory in which every listing gives [names]. *)
Definition mock_directory (names : list string) (taken : list bool) (draws : list Z)
    (refused : list string) : Mock :=
  {| mock_listing := fun _ => Ok names; mock_exists := taken; mock_nextInt := draws;
     mock_refused := refused; mock_createDirectory := Ok tt |}.

Definition boot (w : Mock) : Machine Mock :=
  {| this := new_FileManager; world := w; calls := [] |}.

(** A world in which every path exists: the explorer answers [true] to
    every existence check. *)
#[export] Instance CrowdedExplorer : IFileSystemExplorer unit := {
  explorer_listEntries _ w := (Ok ["a.txt"], w);
  explorer_exists _ w := (Ok true, w);
  explorer_isDirectory _ w := (Ok true, w)
}.

#[export] Instance CrowdedManipulator : IFileSystemManipulator unit := {
  manipulator_copy _ _ w := (Ok tt, w);
  manipulator_move _ _ w := (Ok tt, w);
  manipulator_delete _ w := (Ok tt, w);
  manipulator_createDirectory _ w := (Ok tt, w)
}.

#[export] Instance CrowdedRandom : IRandomProvider unit := {
  random_nextInt _ w := (Ok 7%Z, w)
}.

Definition crowded : Machine unit :=
  {| this := {| currentDirectory := Some "/full";
                entries := ["a.txt"];
                selectedEntries := ["a.txt"] |};
     world := tt;
     calls := [] |}.

(** The test doubles with primitives that throw [null], not an error, on
    the refused sources. *)
#[export] Instance NullThrowingManipulator : IThrowingManipulator Mock := {
  throwing_copy source _ w :=
    (if includes (mock_refused w) source then ThrewNullish null else Done, w);
  throwing_move source _ w :=
    (if includes (mock_refused w) source then ThrewNullish null else Done, w);
  throwing_delete filePath w :=
    (if includes (mock_refused w) filePath then ThrewNullish null else Done, w);
  throwing_createDirectory _ w := (mock_createDirectory w, w)
}.

(** The directory of the unit tests. *)
Definition DIR : string := "/test/dir".

(** [ok.txt] and [fail.txt] listed and selected, transfers of [fail.txt]
    refused: the partial failure of the unit tests. *)
Definition partial_failure : Machine Mock :=
  {| this := {| currentDirectory := Some DIR;
                entries := ["ok.txt"; "fail.txt"];
                selectedEntries := ["ok.txt"; "fail.txt"] |};
     world := mock_directory ["ok.txt"; "fail.txt"] [] [] ["/test/dir/fail.txt"];
     calls := [] |}.

(** [a.txt] listed and selected, with queues of answers for [exists] and
    [nextInt]. *)
Definition one_selected (taken : list bool) (draws : list Z) : Machine Mock :=
  {| this := {| currentDirectory := Some DIR;
                entries := ["a.txt"];
                selectedEntries := ["a.txt"] |};
     world := mock_directory ["a.txt"] taken draws [];
     calls := [] |}.

(** [a.txt] listed and selected, in a place where no directory can be
    created. *)
Definition read_only : Machine Mock :=
  {| this := {| currentDirectory := Some DIR;
                entries := ["a.txt"];
                selectedEntries := ["a.txt"] |};
     world := {| mock_listing := fun _ => Ok ["a.txt"];
                 mock_exists := []; mock_nextInt := []; mock_refused := [];
                 mock_createDirectory := Fails "EACCES: permission denied" |};
     calls := [] |}.

(** The partial failure again, with primitives that throw [null] on
    [fail.txt]: the machine a move of everything leaves. *)
Definition cut_short : Machine Mock :=
  snd ((listEntries DIR ;; selectAll ;; moveSelection_throwing slash_join 0 (Some "/dest"))
         (boot (mock_directory ["ok.txt"; "fail.txt"] [] [] ["/test/dir/fail.txt"]))).

(** An explorer that knows the directory [DIR] only. *)
Definition mock_disk : Mock :=
  {| mock_listing := fun directoryPath =>
       if String.eqb directoryPath DIR then Ok ["a.txt"; "b.txt"]
       else Fails "ENOENT: no such file or directory";
     mock_exists := []; mock_nextInt := []; mock_refused := [];
     mock_createDirectory := Ok tt |}.

(** [DIR] loaded from [mock_disk] through the public interface, and
    everything selected. *)
Definition loaded : Machine Mock :=
  snd (perform slash_join 0 SelectAll
         (snd (perform slash_join 0 (ListEntries DIR) (boot mock_disk)))).

(** The ten colliding attempts of the unit tests, all drawing 3 and 3. *)
Definition ten_collisions : list Attempt :=
  repeat {| adjective_draw := 3; noun_draw := 3; collides := true |} 10.

(** * Properties *)

(** ** Facts about the JavaScript primitives *)

Lemma includes_In (l : list string) (x : string) :
  includes l x = true <-> In x l.
Proof.
  unfold includes. rewrite existsb_exists. split.
  - intros [y [Hy Heq]]. apply String.eqb_eq in Heq. now subst.
  - intros H. exists x. split; [assumption | apply String.eqb_refl].
Qed.

Lemma In_without (x y : string) (l : list string) :
  In y (without x l) <-> In y l /\ y <> x.
Proof.
  unfold without. rewrite filter_In, negb_true_iff, String.eqb_neq. tauto.
Qed.

Lemma NoDup_without (x : string) (l : list string) :
  NoDup l -> NoDup (without x l).
Proof. apply NoDup_filter. Qed.

Lemma In_set_add (s : list string) (x y : string) :
  In y (set_add s x) <-> In y s \/ y = x.
Proof.
  unfold set_add. destruct (includes s x) eqn:E.
  - apply includes_In in E. split; [tauto | intros [H | ->]; assumption].
  - rewrite in_app_iff. simpl. intuition congruence.
Qed.

Lemma NoDup_set_add (s : list string) (x : string) :
  NoDup s -> NoDup (set_add s x).
Proof.
  intros H. unfold set_add. destruct (includes s x) eqn:E; [assumption |].
  assert (Hx : ~ In x s) by (rewrite <- includes_In; congruence).
  clear E. induction H as [| a l Ha Hl IH]; simpl.
  - constructor; [tauto | constructor].
  - constructor.
    + rewrite in_app_iff. simpl. intros [H1 | [H1 | []]]; [tauto |].
      apply Hx. now left.
    + apply IH. intros H1. apply Hx. now right.
Qed.

Lemma In_fold_set_add (l s : list string) (y : string) :
  In y (fold_left set_add l s) <-> In y s \/ In y l.
Proof.
  revert s. induction l as [| a l IH]; intros s; simpl.
  - tauto.
  - rewrite IH, In_set_add. intuition congruence.
Qed.

Lemma NoDup_fold_set_add (l s : list string) :
  NoDup s -> NoDup (fold_left set_add l s).
Proof.
  revert s. induction l as [| a l IH]; intros s H; simpl; [assumption |].
  apply IH, NoDup_set_add, H.
Qed.

(** Deleting the names of [gone] one after the other. *)
Lemma In_without_each (gone l : list string) (y : string) :
  In y (fold_left (fun acc s => without s acc) gone l) <-> In y l /\ ~ In y gone.
Proof.
  revert l. induction gone as [| a gone IH]; intros l; simpl.
  - tauto.
  - rewrite IH, In_without. intuition congruence.
Qed.

Lemma NoDup_without_each (gone l : list string) :
  NoDup l -> NoDup (fold_left (fun acc s => without s acc) gone l).
Proof.
  revert l. induction gone as [| a gone IH]; intros l H; simpl; [assumption |].
  apply IH, NoDup_without, H.
Qed.

Lemma without_each_filter (gone l : list string) :
  fold_left (fun acc s => without s acc) gone l
  = filter (fun e => negb (includes gone e)) l.
Proof.
  revert l. induction gone as [| a gone IH]; intros l; simpl.
  - induction l as [| x l IHl]; simpl; [reflexivity | now rewrite <- IHl].
  - rewrite IH. unfold without. clear IH.
    induction l as [| x l IHl]; simpl; [reflexivity |].
    destruct (String.eqb x a); simpl.
    + apply IHl.
    + destruct (includes gone x); simpl; [apply IHl | now rewrite IHl].
Qed.

Lemma In_successes (att : list (string * Answer unit)) (x : string) :
  In x (successes att) <-> exists u, In (x, Ok u) att.
Proof.
  unfold successes. rewrite in_flat_map. split.
  - intros [[e o] [Hin Hx]]. destruct o as [u |]; simpl in Hx; [| tauto].
    destruct Hx as [<- | []]. now exists u.
  - intros [u Hin]. exists (x, Ok u). split; [assumption | now left].
Qed.



Section Verification.

Context {W : Type}.
Context {explorer : IFileSystemExplorer W}.
Context {manipulator : IFileSystemManipulator W}.
Context {random : IRandomProvider W}.
Variable path_join : string -> string -> string.

(** ** Running the batch loops *)

Ltac run_step :=
  cbv beta iota delta [bind join_current get_this try_catch set_this ret throw
    call_copy call_move call_delete invoke]; simpl.

(** With a current directory, the deletion loop attempts every entry of the
    snapshot in order and returns. *)
Lemma delete_each_run (d : string) (snapshot : list string) :
  forall errs succ (m : Machine W),
    currentDirectory (this m) = Some d ->
    exists att w',
      map fst att = snapshot /\
      delete_each path_join snapshot errs succ m
      = (Returns (errs ++ failures delete att, succ ++ successes att),
         {| this := with_entries
                      (fold_left (fun acc s => without s acc) (successes att)
                                 (entries (this m))) (this m);
            world := w';
            calls := calls m
                     ++ map (fun p => DeleteCall (path_join d (fst p)) (snd p)) att |}).
Proof.
  induction snapshot as [| entry rest IH]; intros errs succ m Hd.
  - exists [], (world m). split; [reflexivity |]. simpl. unfold ret.
    rewrite !app_nil_r. destruct m as [[cd es sel] w cs]; reflexivity.
  - simpl. run_step. rewrite Hd. simpl.
    destruct (manipulator_delete (path_join d entry) (world m)) as [[[] | message] w1] eqn:E;
      simpl.
    + match goal with |- context [delete_each _ rest ?e ?s ?m1] =>
        destruct (IH e s m1 Hd) as (att & w' & Hatt & Hrun) end.
      exists ((entry, Ok tt) :: att), w'. split; [simpl; now rewrite Hatt |].
      rewrite Hrun. simpl. rewrite <- !app_assoc. reflexivity.
    + match goal with |- context [delete_each _ rest ?e ?s ?m1] =>
        destruct (IH e s m1 Hd) as (att & w' & Hatt & Hrun) end.
      exists ((entry, Fails message) :: att), w'. split; [simpl; now rewrite Hatt |].
      rewrite Hrun. simpl. rewrite <- !app_assoc. reflexivity.
Qed.

Lemma move_each_run (d resolved : string) (snapshot : list string) :
  forall errs succ (m : Machine W),
    currentDirectory (this m) = Some d ->
    exists att w',
      map fst att = snapshot /\
      move_each path_join resolved snapshot errs succ m
      = (Returns (errs ++ failures move att, succ ++ successes att),
         {| this := with_entries
                      (fold_left (fun acc s => without s acc) (successes att)
                                 (entries (this m))) (this m);
            world := w';
            calls := calls m
                     ++ map (fun p => MoveCall (path_join d (fst p))
                                               (path_join resolved (fst p)) (snd p)) att |}).
Proof.
  induction snapshot as [| entry rest IH]; intros errs succ m Hd.
  - exists [], (world m). split; [reflexivity |]. simpl. unfold ret.
    rewrite !app_nil_r. destruct m as [[cd es sel] w cs]; reflexivity.
  - simpl. run_step. rewrite Hd. simpl.
    destruct (manipulator_move (path_join d entry) (path_join resolved entry) (world m))
      as [[[] | message] w1] eqn:E; simpl.
    + match goal with |- context [move_each _ _ rest ?e ?s ?m1] =>
        destruct (IH e s m1 Hd) as (att & w' & Hatt & Hrun) end.
      exists ((entry, Ok tt) :: att), w'. split; [simpl; now rewrite Hatt |].
      rewrite Hrun. simpl. rewrite <- !app_assoc. reflexivity.
    + match goal with |- context [move_each _ _ rest ?e ?s ?m1] =>
        destruct (IH e s m1 Hd) as (att & w' & Hatt & Hrun) end.
      exists ((entry, Fails message) :: att), w'. split; [simpl; now rewrite Hatt |].
      rewrite Hrun. simpl. rewrite <- !app_assoc. reflexivity.
Qed.

(** The copy loop does the same and leaves the fields alone. *)
Lemma copy_each_run (d resolved : string) (snapshot : list string) :
  forall errs succ (m : Machine W),
    currentDirectory (this m) = Some d ->
    exists att w',
      map fst att = snapshot /\
      copy_each path_join resolved snapshot errs succ m
      = (Returns (errs ++ failures copy att, succ ++ successes att),
         {| this := this m;
            world := w';
            calls := calls m
                     ++ map (fun p => CopyCall (path_join d (fst p))
                                               (path_join resolved (fst p)) (snd p)) att |}).
Proof.
  induction snapshot as [| entry rest IH]; intros errs succ m Hd.
  - exists [], (world m). split; [reflexivity |]. simpl. unfold ret.
    rewrite !app_nil_r. destruct m as [fm w cs]; reflexivity.
  - simpl. run_step. rewrite Hd. simpl.
    destruct (manipulator_copy (path_join d entry) (path_join resolved entry) (world m))
      as [[[] | message] w1] eqn:E; simpl.
    + match goal with |- context [copy_each _ _ rest ?e ?s ?m1] =>
        destruct (IH e s m1 Hd) as (att & w' & Hatt & Hrun) end.
      exists ((entry, Ok tt) :: att), w'. split; [simpl; now rewrite Hatt |].
      rewrite Hrun. simpl. rewrite <- !app_assoc. reflexivity.
    + match goal with |- context [copy_each _ _ rest ?e ?s ?m1] =>
        destruct (IH e s m1 Hd) as (att & w' & Hatt & Hrun) end.
      exists ((entry, Fails message) :: att), w'. split; [simpl; now rewrite Hatt |].
      rewrite Hrun. simpl. rewrite <- !app_assoc. reflexivity.
Qed.


Lemma move_each_null resolved entry rest errs succ (m : Machine W) :
  currentDirectory (this m) = None ->
  move_each path_join resolved (entry :: rest) errs succ m = (Throws NullDirectory, m).
Proof. intros Hd. simpl. run_step. now rewrite Hd. Qed.

Lemma delete_each_null entry rest errs succ (m : Machine W) :
  currentDirectory (this m) = None ->
  delete_each path_join (entry :: rest) errs succ m = (Throws NullDirectory, m).
Proof. intros Hd. simpl. run_step. now rewrite Hd. Qed.

(** ** Destination resolution leaves the fields alone *)

Lemma keeps_this_bind {A B} (c : M W A) (k : A -> M W B) :
  keeps_this W c -> (forall a, keeps_this W (k a)) -> keeps_this W (bind c k).
Proof.
  intros Hc Hk m. unfold bind. specialize (Hc m).
  destruct (c m) as [[a | e |] m1]; simpl in *; [| assumption | assumption].
  now rewrite Hk.
Qed.

Lemma keeps_this_invoke {A} (op : W -> Answer A * W) (record : Answer A -> Call) :
  keeps_this W (invoke op record).
Proof.
  intros m. unfold invoke. destruct (op (world m)) as [[a | message] w1]; reflexivity.
Qed.

Lemma keeps_this_join_current (name : string) : keeps_this W (join_current path_join name).
Proof.
  intros m. unfold join_current, bind, get_this.
  destruct (currentDirectory (this m)); reflexivity.
Qed.

Lemma keeps_this_ret {A} (a : A) : keeps_this W (ret (W := W) a).
Proof. intros m. reflexivity. Qed.

Lemma keeps_this_random_attempts (n : nat) :
  forall name, keeps_this W (random_attempts path_join n name).
Proof.
  induction n as [| n IH]; intros name; simpl.
  - apply keeps_this_ret.
  - apply keeps_this_bind; [apply keeps_this_invoke | intros i].
    apply keeps_this_bind; [apply keeps_this_invoke | intros j].
    apply keeps_this_bind; [apply keeps_this_join_current | intros fullPath].
    apply keeps_this_bind; [apply keeps_this_invoke | intros taken].
    destruct taken; simpl; [apply IH | apply keeps_this_ret].
Qed.

Lemma keeps_this_number_name (fuel : nat) :
  forall name counter, keeps_this W (number_name path_join fuel name counter).
Proof.
  induction fuel as [| fuel IH]; intros name counter; simpl.
  - intros m. reflexivity.
  - apply keeps_this_bind; [apply keeps_this_join_current | intros probed].
    apply keeps_this_bind; [apply keeps_this_invoke | intros taken].
    destruct taken; [apply IH | apply keeps_this_join_current].
Qed.

Lemma keeps_this_resolveDestination fuel destinationPath :
  keeps_this W (resolveDestination path_join fuel destinationPath).
Proof.
  assert (G : keeps_this W (r <- random_attempts path_join 10 "" ;;
                          match r with
                          | inl fullPath => ret fullPath
                          | inr name => number_name path_join fuel name 1
                          end)).
  { apply keeps_this_bind; [apply keeps_this_random_attempts | intros [p | name]].
    - apply keeps_this_ret.
    - apply keeps_this_number_name. }
  unfold resolveDestination. destruct destinationPath as [[| c rest] |]; try exact G.
  apply keeps_this_ret.
Qed.

Lemma keeps_this_prepare_destination fuel destinationPath :
  keeps_this W (prepare_destination path_join fuel destinationPath).
Proof.
  unfold prepare_destination.
  apply keeps_this_bind; [apply keeps_this_resolveDestination | intros resolved].
  apply keeps_this_bind; [apply keeps_this_invoke | intros _; apply keeps_this_ret].
Qed.

(** ** The three operations, phase by phase *)

Lemma selection_guard (sel : list string) :
  Nat.eqb (List.length sel) 0 = true <-> sel = [].
Proof. destruct sel; simpl; split; congruence. Qed.

(** The operations read as their guard, their preparation and their loop. *)
Lemma copySelection_unfold fuel destinationPath (m : Machine W) :
  copySelection path_join fuel destinationPath m
  = if Nat.eqb (List.length (selectedEntries (this m))) 0 then (Throws NothingSelected, m)
    else match prepare_destination path_join fuel destinationPath m with
         | (Returns resolved, m1) =>
             match copy_each path_join resolved (selectedEntries (this m1)) [] [] m1 with
             | (Returns acc, m2) =>
                 (Returns {| destinationPath := Some resolved; errors := fst acc |},
                  {| this := with_selectedEntries
                               (fold_left (fun sel s => without s sel) (snd acc)
                                          (selectedEntries (this m2))) (this m2);
                     world := world m2; calls := calls m2 |})
             | (Throws e, m2) => (Throws e, m2)
             | (Diverges, m2) => (Diverges, m2)
             end
         | (Throws e, m1) => (Throws e, m1)
         | (Diverges, m1) => (Diverges, m1)
         end.
Proof.
  unfold copySelection, prepare_destination, deselect_each.
  cbv beta iota delta [bind get_this set_this ret throw]. simpl.
  destruct (Nat.eqb (List.length (selectedEntries (this m))) 0); [reflexivity |].
  destruct (resolveDestination path_join fuel destinationPath m) as [[resolved | e |] m0];
    try reflexivity.
  destruct (call_createDirectory resolved m0) as [[u | e |] m1]; reflexivity.
Qed.

Lemma moveSelection_unfold fuel destinationPath (m : Machine W) :
  moveSelection path_join fuel destinationPath m
  = if Nat.eqb (List.length (selectedEntries (this m))) 0 then (Throws NothingSelected, m)
    else match prepare_destination path_join fuel destinationPath m with
         | (Returns resolved, m1) =>
             match move_each path_join resolved (selectedEntries (this m1)) [] [] m1 with
             | (Returns acc, m2) =>
                 (Returns {| destinationPath := Some resolved; errors := fst acc |},
                  {| this := with_selectedEntries
                               (fold_left (fun sel s => without s sel) (snd acc)
                                          (selectedEntries (this m2))) (this m2);
                     world := world m2; calls := calls m2 |})
             | (Throws e, m2) => (Throws e, m2)
             | (Diverges, m2) => (Diverges, m2)
             end
         | (Throws e, m1) => (Throws e, m1)
         | (Diverges, m1) => (Diverges, m1)
         end.
Proof.
  unfold moveSelection, prepare_destination, deselect_each.
  cbv beta iota delta [bind get_this set_this ret throw]. simpl.
  destruct (Nat.eqb (List.length (selectedEntries (this m))) 0); [reflexivity |].
  destruct (resolveDestination path_join fuel destinationPath m) as [[resolved | e |] m0];
    try reflexivity.
  destruct (call_createDirectory resolved m0) as [[u | e |] m1]; reflexivity.
Qed.

Lemma deleteSelection_unfold (m : Machine W) :
  deleteSelection path_join m
  = if Nat.eqb (List.length (selectedEntries (this m))) 0 then (Throws NothingSelected, m)
    else match delete_each path_join (selectedEntries (this m)) [] [] m with
         | (Returns acc, m2) =>
             (Returns {| destinationPath := None; errors := fst acc |},
              {| this := with_selectedEntries
                           (fold_left (fun sel s => without s sel) (snd acc)
                                      (selectedEntries (this m2))) (this m2);
                 world := world m2; calls := calls m2 |})
         | (Throws e, m2) => (Throws e, m2)
         | (Diverges, m2) => (Diverges, m2)
         end.
Proof.
  unfold deleteSelection, deselect_each.
  cbv beta iota delta [bind get_this set_this ret throw]. simpl.
  destruct (Nat.eqb (List.length (selectedEntries (this m))) 0); [reflexivity |].
  destruct (delete_each path_join (selectedEntries (this m)) [] [] m)
    as [[acc | e |] m2]; reflexivity.
Qed.

(** With a current directory and a selection, a deletion returns; its
    effect is read off the answers of the manipulator. *)
Lemma deleteSelection_run (d : string) (m : Machine W) :
  currentDirectory (this m) = Some d ->
  selectedEntries (this m) <> [] ->
  exists att w',
    map fst att = selectedEntries (this m) /\
    deleteSelection path_join m
    = (Returns {| destinationPath := None; errors := failures delete att |},
       {| this := {| currentDirectory := Some d;
                     entries := fold_left (fun acc s => without s acc) (successes att)
                                          (entries (this m));
                     selectedEntries := fold_left (fun acc s => without s acc) (successes att)
                                                  (selectedEntries (this m)) |};
          world := w';
          calls := calls m
                   ++ map (fun p => DeleteCall (path_join d (fst p)) (snd p)) att |}).
Proof.
  intros Hd Hsel. rewrite deleteSelection_unfold.
  destruct (Nat.eqb (List.length (selectedEntries (this m))) 0) eqn:G.
  - apply selection_guard in G. contradiction.
  - destruct (delete_each_run d (selectedEntries (this m)) [] [] m Hd)
      as (att & w' & Hatt & Hrun).
    exists att, w'. split; [assumption |]. rewrite Hrun. simpl.
    unfold with_selectedEntries, with_entries. simpl. now rewrite Hd.
Qed.

(** The same for a move whose destination was resolved and created. *)
Lemma moveSelection_run (d : string) fuel destinationPath resolved (m m1 : Machine W) :
  currentDirectory (this m) = Some d ->
  selectedEntries (this m) <> [] ->
  prepare_destination path_join fuel destinationPath m = (Returns resolved, m1) ->
  exists att w',
    map fst att = selectedEntries (this m) /\
    moveSelection path_join fuel destinationPath m
    = (Returns {| destinationPath := Some resolved; errors := failures move att |},
       {| this := {| currentDirectory := Some d;
                     entries := fold_left (fun acc s => without s acc) (successes att)
                                          (entries (this m));
                     selectedEntries := fold_left (fun acc s => without s acc) (successes att)
                                                  (selectedEntries (this m)) |};
          world := w';
          calls := calls m1
                   ++ map (fun p => MoveCall (path_join d (fst p))
                                             (path_join resolved (fst p)) (snd p)) att |}).
Proof.
  intros Hd Hsel Hprep. rewrite moveSelection_unfold, Hprep.
  assert (Hthis : this m1 = this m).
  { pose proof (keeps_this_prepare_destination fuel destinationPath m) as K.
    now rewrite Hprep in K. }
  destruct (Nat.eqb (List.length (selectedEntries (this m))) 0) eqn:G.
  - apply selection_guard in G. contradiction.
  - rewrite <- Hthis in Hd.
    destruct (move_each_run d resolved (selectedEntries (this m1)) [] [] m1 Hd)
      as (att & w' & Hatt & Hrun).
    exists att, w'. rewrite <- Hthis. split; [assumption |]. rewrite Hrun. simpl.
    unfold with_selectedEntries, with_entries. simpl. now rewrite Hd.
Qed.

(** The same for a copy, which leaves the entries as they are. *)
Lemma copySelection_run (d : string) fuel destinationPath resolved (m m1 : Machine W) :
  currentDirectory (this m) = Some d ->
  selectedEntries (this m) <> [] ->
  prepare_destination path_join fuel destinationPath m = (Returns resolved, m1) ->
  exists att w',
    map fst att = selectedEntries (this m) /\
    copySelection path_join fuel destinationPath m
    = (Returns {| destinationPath := Some resolved; errors := failures copy att |},
       {| this := {| currentDirectory := Some d;
                     entries := entries (this m);
                     selectedEntries := fold_left (fun acc s => without s acc) (successes att)
                                                  (selectedEntries (this m)) |};
          world := w';
          calls := calls m1
                   ++ map (fun p => CopyCall (path_join d (fst p))
                                             (path_join resolved (fst p)) (snd p)) att |}).
Proof.
  intros Hd Hsel Hprep. rewrite copySelection_unfold, Hprep.
  assert (Hthis : this m1 = this m).
  { pose proof (keeps_this_prepare_destination fuel destinationPath m) as K.
    now rewrite Hprep in K. }
  destruct (Nat.eqb (List.length (selectedEntries (this m))) 0) eqn:G.
  - apply selection_guard in G. contradiction.
  - rewrite <- Hthis in Hd.
    destruct (copy_each_run d resolved (selectedEntries (this m1)) [] [] m1 Hd)
      as (att & w' & Hatt & Hrun).
    exists att, w'. rewrite <- Hthis. split; [assumption |]. rewrite Hrun. simpl.
    unfold with_selectedEntries. simpl. now rewrite Hd.
Qed.


(** ** No dereference of a null current directory *)

Lemma never_null_bind {A B} (c : M W A) (k : A -> M W B) :
  keeps_this W c -> never_null W c -> (forall a, never_null W (k a)) ->
  never_null W (bind c k).
Proof.
  intros Hkeep Hc Hk m Hd. unfold bind. specialize (Hkeep m). specialize (Hc m Hd).
  destruct (c m) as [[a | e |] m1]; simpl in *.
  - apply Hk. now rewrite Hkeep.
  - intros H. apply Hc. inversion H. reflexivity.
  - discriminate.
Qed.

Lemma never_null_invoke {A} (op : W -> Answer A * W) (record : Answer A -> Call) :
  never_null W (invoke op record).
Proof.
  intros m _. unfold invoke.
  destruct (op (world m)) as [[a | message] w1]; simpl; discriminate.
Qed.

Lemma never_null_join_current (name : string) :
  never_null W (join_current path_join name).
Proof.
  intros m Hd. unfold join_current, bind, get_this.
  destruct (currentDirectory (this m)); simpl; [discriminate | contradiction].
Qed.

Lemma never_null_ret {A} (a : A) : never_null W (ret (W := W) a).
Proof. intros m _. simpl. discriminate. Qed.

Lemma never_null_random_attempts (n : nat) :
  forall name, never_null W (random_attempts path_join n name).
Proof.
  induction n as [| n IH]; intros name; simpl.
  - apply never_null_ret.
  - apply never_null_bind;
      [apply keeps_this_invoke | apply never_null_invoke | intros i].
    apply never_null_bind;
      [apply keeps_this_invoke | apply never_null_invoke | intros j].
    apply never_null_bind;
      [apply keeps_this_join_current | apply never_null_join_current | intros fullPath].
    apply never_null_bind;
      [apply keeps_this_invoke | apply never_null_invoke | intros taken].
    destruct taken; simpl; [apply IH | apply never_null_ret].
Qed.

Lemma never_null_number_name (fuel : nat) :
  forall name counter, never_null W (number_name path_join fuel name counter).
Proof.
  induction fuel as [| fuel IH]; intros name counter; simpl.
  - intros m _. simpl. discriminate.
  - apply never_null_bind;
      [apply keeps_this_join_current | apply never_null_join_current | intros probed].
    apply never_null_bind;
      [apply keeps_this_invoke | apply never_null_invoke | intros taken].
    destruct taken; [apply IH | apply never_null_join_current].
Qed.

Lemma never_null_prepare_destination fuel destinationPath :
  never_null W (prepare_destination path_join fuel destinationPath).
Proof.
  unfold prepare_destination.
  apply never_null_bind; [apply keeps_this_resolveDestination | | intros resolved].
  - unfold resolveDestination.
    assert (G : never_null W (r <- random_attempts path_join 10 "" ;;
                              match r with
                              | inl fullPath => ret fullPath
                              | inr name => number_name path_join fuel name 1
                              end)).
    { apply never_null_bind;
        [apply keeps_this_random_attempts | apply never_null_random_attempts
        | intros [p | name]].
      - apply never_null_ret.
      - apply never_null_number_name. }
    destruct destinationPath as [[| c rest] |]; try exact G. apply never_null_ret.
  - apply never_null_bind;
      [apply keeps_this_invoke | apply never_null_invoke | intros _; apply never_null_ret].
Qed.

(** ** The invariant of the fields *)

Lemma snd_ignore {A} (c : M W A) (m : Machine W) : snd (ignore c m) = snd (c m).
Proof. unfold ignore, bind, ret. destruct (c m) as [[a | e |] m1]; reflexivity. Qed.

Lemma invariant_new : invariant new_FileManager.
Proof.
  repeat split; simpl; try constructor; try (intros x []); congruence.
Qed.

Lemma invariant_listEntries directoryPath (m : Machine W) :
  invariant (this m) -> invariant (this (snd (listEntries directoryPath m))).
Proof.
  intros [[Hnd Hincl] Hdir]. unfold listEntries, call_listEntries.
  cbv beta iota delta [bind get_this set_this ret invoke]. simpl.
  destruct (explorer_listEntries directoryPath (world m)) as [[listed | message] w1]; simpl.
  - repeat split; simpl; [constructor | intros x [] | discriminate].
  - repeat split; simpl; [assumption | assumption | discriminate].
Qed.

Lemma invariant_select entryName (m : Machine W) :
  invariant (this m) -> invariant (this (snd (select entryName m))).
Proof.
  intros [[Hnd Hincl] Hdir]. unfold select.
  cbv beta iota delta [bind get_this set_this ret throw]. simpl.
  destruct (includes (entries (this m)) entryName) eqn:E; simpl.
  - apply includes_In in E. repeat split; simpl; [now apply NoDup_set_add | | assumption].
    intros x Hx. apply In_set_add in Hx. destruct Hx as [Hx | ->]; [now apply Hincl | assumption].
  - repeat split; assumption.
Qed.

Lemma invariant_removal (fm : FileManager) (gone : list string) :
  invariant fm ->
  invariant {| currentDirectory := currentDirectory fm;
               entries := fold_left (fun acc s => without s acc) gone (entries fm);
               selectedEntries := fold_left (fun acc s => without s acc) gone
                                            (selectedEntries fm) |}.
Proof.
  intros [[Hnd Hincl] Hdir]. repeat split; simpl.
  - now apply NoDup_without_each.
  - intros x Hx. apply In_without_each in Hx. apply In_without_each.
    split; [apply Hincl |]; tauto.
  - intros Hne. apply Hdir. intros Hnil. rewrite Hnil in Hne. apply Hne.
    clear. induction gone as [| a gone IH]; simpl; [reflexivity | exact IH].
Qed.

Lemma invariant_deselection (fm : FileManager) (gone : list string) :
  invariant fm ->
  invariant {| currentDirectory := currentDirectory fm;
               entries := entries fm;
               selectedEntries := fold_left (fun acc s => without s acc) gone
                                            (selectedEntries fm) |}.
Proof.
  intros [[Hnd Hincl] Hdir]. repeat split; simpl.
  - now apply NoDup_without_each.
  - intros x Hx. apply In_without_each in Hx. apply Hincl. tauto.
  - assumption.
Qed.

(** A state with a selection has a current directory. *)
Lemma invariant_directory (fm : FileManager) :
  invariant fm -> selectedEntries fm <> [] -> exists d, currentDirectory fm = Some d.
Proof.
  intros [[Hnd Hincl] Hdir] Hsel.
  destruct (currentDirectory fm) as [d |] eqn:E; [now exists d |].
  exfalso. apply Hdir; [| reflexivity].
  destruct (selectedEntries fm) as [| x sel]; [congruence |].
  intros Hnil. specialize (Hincl x (or_introl eq_refl)). rewrite Hnil in Hincl. exact Hincl.
Qed.

Lemma invariant_copySelection fuel destinationPath (m : Machine W) :
  invariant (this m) -> invariant (this (snd (copySelection path_join fuel destinationPath m))).
Proof.
  intros Hinv.
  destruct (selectedEntries (this m)) as [| x sel] eqn:Hsel.
  - rewrite copySelection_unfold, Hsel. exact Hinv.
  - assert (Hne : selectedEntries (this m) <> []) by (rewrite Hsel; discriminate).
    destruct (invariant_directory (this m) Hinv Hne) as [d Hd].
    pose proof (keeps_this_prepare_destination fuel destinationPath m) as K.
    destruct (prepare_destination path_join fuel destinationPath m)
      as [[resolved | e |] m1] eqn:Hprep.
    + destruct (copySelection_run d fuel destinationPath resolved m m1 Hd Hne Hprep) as (att & w' & _ & Hrun).
      rewrite Hrun. simpl. rewrite <- Hd. now apply invariant_deselection.
    + rewrite copySelection_unfold, Hprep, Hsel. simpl in *. now rewrite K.
    + rewrite copySelection_unfold, Hprep, Hsel. simpl in *. now rewrite K.
Qed.

Lemma invariant_moveSelection fuel destinationPath (m : Machine W) :
  invariant (this m) -> invariant (this (snd (moveSelection path_join fuel destinationPath m))).
Proof.
  intros Hinv.
  destruct (selectedEntries (this m)) as [| x sel] eqn:Hsel.
  - rewrite moveSelection_unfold, Hsel. exact Hinv.
  - assert (Hne : selectedEntries (this m) <> []) by (rewrite Hsel; discriminate).
    destruct (invariant_directory (this m) Hinv Hne) as [d Hd].
    pose proof (keeps_this_prepare_destination fuel destinationPath m) as K.
    destruct (prepare_destination path_join fuel destinationPath m)
      as [[resolved | e |] m1] eqn:Hprep.
    + destruct (moveSelection_run d fuel destinationPath resolved m m1 Hd Hne Hprep) as (att & w' & _ & Hrun).
      rewrite Hrun. simpl. rewrite <- Hd. now apply invariant_removal.
    + rewrite moveSelection_unfold, Hprep, Hsel. simpl in *. now rewrite K.
    + rewrite moveSelection_unfold, Hprep, Hsel. simpl in *. now rewrite K.
Qed.

Lemma invariant_deleteSelection (m : Machine W) :
  invariant (this m) -> invariant (this (snd (deleteSelection path_join m))).
Proof.
  intros Hinv.
  destruct (selectedEntries (this m)) as [| x sel] eqn:Hsel.
  - rewrite deleteSelection_unfold, Hsel. exact Hinv.
  - assert (Hne : selectedEntries (this m) <> []) by (rewrite Hsel; discriminate).
    destruct (invariant_directory (this m) Hinv Hne) as [d Hd].
    destruct (deleteSelection_run d m Hd Hne) as (att & w' & _ & Hrun).
    rewrite Hrun. simpl. rewrite <- Hd. now apply invariant_removal.
Qed.

Lemma invariant_perform fuel (r : Request) (m : Machine W) :
  invariant (this m) -> invariant (this (snd (perform path_join fuel r m))).
Proof.
  intros Hinv. destruct r; simpl; rewrite ?snd_ignore.
  - now apply invariant_listEntries.
  - exact Hinv.
  - exact Hinv.
  - now apply invariant_select.
  - destruct Hinv as [[Hnd Hincl] Hdir]. repeat split; simpl.
    + now apply NoDup_without.
    + intros x Hx. apply In_without in Hx. apply Hincl. tauto.
    + assumption.
  - destruct Hinv as [[Hnd Hincl] Hdir]. repeat split; simpl.
    + now apply NoDup_fold_set_add.
    + intros x Hx. apply In_fold_set_add in Hx. destruct Hx; [now apply Hincl | assumption].
    + assumption.
  - destruct Hinv as [[Hnd Hincl] Hdir]. repeat split; simpl;
      [constructor | intros x [] | assumption].
  - exact Hinv.
  - exact Hinv.
  - now apply invariant_copySelection.
  - now apply invariant_moveSelection.
  - now apply invariant_deleteSelection.
Qed.

Lemma reachable_invariant (m : Machine W) :
  reachable path_join m -> invariant (this m).
Proof.
  induction 1 as [w | m fuel r Hm IH | m w Hm IH].
  - apply invariant_new.
  - now apply invariant_perform.
  - exact IH.
Qed.

(** ** Claims on the batch operations *)


(** C2, as amended.  In every state reachable through the public methods,
    whatever the collaborators answer, a call of theirs that fails throwing
    an error that carries a message, every selected name is one of the
    entries; so it is again after any further public call, however that
    call ends. *)
Theorem selection_within_entries (m : Machine W) :
  reachable path_join m ->
  incl (selectedEntries (this m)) (entries (this m)) /\
  (forall fuel r,
     incl (selectedEntries (this (snd (perform path_join fuel r m))))
          (entries (this (snd (perform path_join fuel r m))))).
Proof.
  intros Hm. split.
  - apply (reachable_invariant m Hm).
  - intros fuel r. apply (reachable_invariant _ (reachable_perform path_join m fuel r Hm)).
Qed.

(** C3.  With an empty selection, each of the three operations throws the
    nothing-selected error and leaves the whole machine as it was: the three
    fields, the world of the collaborators, and the record of calls, to
    which no manipulator call and no random draw was added. *)
Theorem empty_selection_rejected fuel destinationPath (m : Machine W) :
  selectedEntries (this m) = [] ->
  copySelection path_join fuel destinationPath m = (Throws NothingSelected, m) /\
  moveSelection path_join fuel destinationPath m = (Throws NothingSelected, m) /\
  deleteSelection path_join m = (Throws NothingSelected, m).
Proof.
  intros Hsel.
  rewrite copySelection_unfold, moveSelection_unfold, deleteSelection_unfold, Hsel.
  repeat split.
Qed.



(** ** Claims on loading a directory *)

(** What [listEntries] does when the explorer throws: the error is passed
    on, the entries and the selection are as before, and the current
    directory is already the path asked for. *)
Lemma listEntries_failure directoryPath message w1 (m : Machine W) :
  explorer_listEntries directoryPath (world m) = (Fails message, w1) ->
  listEntries directoryPath m
  = (Throws (Raised message),
     {| this := with_currentDirectory (Some directoryPath) (this m);
        world := w1;
        calls := calls m ++ [ListEntriesCall directoryPath (Fails message)] |}).
Proof.
  intros E. unfold listEntries, call_listEntries.
  cbv beta iota delta [bind get_this set_this ret invoke]. simpl. now rewrite E.
Qed.

(** C9.  When the explorer answers, [listEntries] makes its answer the
    entries, empties the selection whatever it held, makes the path the
    current directory, and returns the new entries. *)
Theorem listEntries_loads directoryPath listed w1 (m : Machine W) :
  explorer_listEntries directoryPath (world m) = (Ok listed, w1) ->
  listEntries directoryPath m
  = (Returns listed,
     {| this := {| currentDirectory := Some directoryPath;
                   entries := listed;
                   selectedEntries := [] |};
        world := w1;
        calls := calls m ++ [ListEntriesCall directoryPath (Ok listed)] |}).
Proof.
  intros E. unfold listEntries, call_listEntries.
  cbv beta iota delta [bind get_this set_this ret invoke]. simpl. now rewrite E.
Qed.

(** ** Claims on the current directory *)

Lemma ignore_throws {A} (c : M W A) (m : Machine W) (e : Thrown) :
  fst (ignore c m) = Throws e -> fst (c m) = Throws e.
Proof.
  unfold ignore, bind, ret. destruct (c m) as [[a | e' |] m1]; simpl; congruence.
Qed.

Lemma copySelection_never_null fuel destinationPath (m : Machine W) :
  invariant (this m) ->
  fst (copySelection path_join fuel destinationPath m) <> Throws NullDirectory.
Proof.
  intros Hinv.
  destruct (selectedEntries (this m)) as [| x sel] eqn:Hsel.
  - rewrite copySelection_unfold, Hsel. simpl. discriminate.
  - assert (Hne : selectedEntries (this m) <> []) by (rewrite Hsel; discriminate).
    destruct (invariant_directory (this m) Hinv Hne) as [d Hd].
    assert (Hdir : currentDirectory (this m) <> None) by congruence.
    pose proof (never_null_prepare_destination fuel destinationPath m Hdir) as N.
    destruct (prepare_destination path_join fuel destinationPath m)
      as [[resolved | e |] m1] eqn:Hprep.
    + destruct (copySelection_run d fuel destinationPath resolved m m1 Hd Hne Hprep)
        as (att & w' & _ & Hrun).
      rewrite Hrun. simpl. discriminate.
    + rewrite copySelection_unfold, Hprep, Hsel. simpl in *. congruence.
    + rewrite copySelection_unfold, Hprep, Hsel. simpl. discriminate.
Qed.

Lemma moveSelection_never_null fuel destinationPath (m : Machine W) :
  invariant (this m) ->
  fst (moveSelection path_join fuel destinationPath m) <> Throws NullDirectory.
Proof.
  intros Hinv.
  destruct (selectedEntries (this m)) as [| x sel] eqn:Hsel.
  - rewrite moveSelection_unfold, Hsel. simpl. discriminate.
  - assert (Hne : selectedEntries (this m) <> []) by (rewrite Hsel; discriminate).
    destruct (invariant_directory (this m) Hinv Hne) as [d Hd].
    assert (Hdir : currentDirectory (this m) <> None) by congruence.
    pose proof (never_null_prepare_destination fuel destinationPath m Hdir) as N.
    destruct (prepare_destination path_join fuel destinationPath m)
      as [[resolved | e |] m1] eqn:Hprep.
    + destruct (moveSelection_run d fuel destinationPath resolved m m1 Hd Hne Hprep)
        as (att & w' & _ & Hrun).
      rewrite Hrun. simpl. discriminate.
    + rewrite moveSelection_unfold, Hprep, Hsel. simpl in *. congruence.
    + rewrite moveSelection_unfold, Hprep, Hsel. simpl. discriminate.
Qed.

Lemma deleteSelection_never_null (m : Machine W) :
  invariant (this m) ->
  fst (deleteSelection path_join m) <> Throws NullDirectory.
Proof.
  intros Hinv.
  destruct (selectedEntries (this m)) as [| x sel] eqn:Hsel.
  - rewrite deleteSelection_unfold, Hsel. simpl. discriminate.
  - assert (Hne : selectedEntries (this m) <> []) by (rewrite Hsel; discriminate).
    destruct (invariant_directory (this m) Hinv Hne) as [d Hd].
    destruct (deleteSelection_run d m Hd Hne) as (att & w' & _ & Hrun).
    rewrite Hrun. simpl. discriminate.
Qed.

(** C10.  In every reachable state a selection that is not empty comes with
    a current directory; hence no public call ever ends in the error of a
    [null] current directory, and with a selection the destination
    resolution itself never does. *)
Theorem current_directory_never_null (m : Machine W) :
  reachable path_join m ->
  (selectedEntries (this m) <> [] -> currentDirectory (this m) <> None) /\
  (forall fuel r, fst (perform path_join fuel r m) <> Throws NullDirectory) /\
  (forall fuel destinationPath,
     selectedEntries (this m) <> [] ->
     fst (resolveDestination path_join fuel destinationPath m) <> Throws NullDirectory).
Proof.
  intros Hm. pose proof (reachable_invariant m Hm) as Hinv.
  assert (Hdir : selectedEntries (this m) <> [] -> currentDirectory (this m) <> None).
  { intros Hsel. destruct (invariant_directory (this m) Hinv Hsel) as [d Hd]. congruence. }
  split; [exact Hdir | split].
  - intros fuel r H.
    destruct r as [directoryPath | | | entryName | entryName | | | | entryName
                  | destination | destination |];
      simpl in H; try apply ignore_throws in H.
    + revert H. unfold listEntries, call_listEntries.
      cbv beta iota delta [bind get_this set_this ret invoke]. simpl.
      destruct (explorer_listEntries directoryPath (world m)) as [[listed | message] w1];
        simpl; discriminate.
    + discriminate.
    + discriminate.
    + revert H. unfold select.
      cbv beta iota delta [bind get_this set_this ret throw]. simpl.
      destruct (includes (entries (this m)) entryName); simpl; discriminate.
    + discriminate.
    + discriminate.
    + discriminate.
    + discriminate.
    + discriminate.
    + now apply (copySelection_never_null fuel destination m Hinv).
    + now apply (moveSelection_never_null fuel destination m Hinv).
    + now apply (deleteSelection_never_null m Hinv).
  - intros fuel destinationPath Hsel.
    assert (N : never_null W (resolveDestination path_join fuel destinationPath)).
    { unfold resolveDestination.
      assert (G : never_null W (r <- random_attempts path_join 10 "" ;;
                                match r with
                                | inl fullPath => ret fullPath
                                | inr name => number_name path_join fuel name 1
                                end)).
      { apply never_null_bind;
          [apply keeps_this_random_attempts | apply never_null_random_attempts
          | intros [p | name]].
        - apply never_null_ret.
        - apply never_null_number_name. }
      destruct destinationPath as [[| c rest] |]; try exact G. apply never_null_ret. }
    apply N, Hdir, Hsel.
Qed.

(** ** Claims on an explicit destination *)

(** C8, as amended.  A destination that is not the empty string is
    returned as it is, with no call at all; a copy or a move towards it
    that finds a selection, a current directory and a manipulator creating
    the destination returns it as the destination path of its result,
    having made no existence check and no random draw. *)
Theorem explicit_destination_kept (given : string) fuel (m : Machine W) :
  given <> "" ->
  resolveDestination path_join fuel (Some given) m = (Returns given, m) /\
  (forall d w1,
     currentDirectory (this m) = Some d ->
     selectedEntries (this m) <> [] ->
     manipulator_createDirectory given (world m) = (Ok tt, w1) ->
     (exists result m' new,
        copySelection path_join fuel (Some given) m = (Returns result, m') /\
        destinationPath result = Some given /\
        calls m' = calls m ++ new /\
        Forall (fun c => is_exists_call c = false /\ is_nextInt_call c = false) new) /\
     (exists result m' new,
        moveSelection path_join fuel (Some given) m = (Returns result, m') /\
        destinationPath result = Some given /\
        calls m' = calls m ++ new /\
        Forall (fun c => is_exists_call c = false /\ is_nextInt_call c = false) new)).
Proof.
  intros Hgiven.
  assert (Hres : resolveDestination path_join fuel (Some given) m = (Returns given, m)).
  { destruct given as [| c rest]; [congruence | reflexivity]. }
  split; [exact Hres |].
  intros d w1 Hd Hsel Hcreate.
  assert (Hprep : prepare_destination path_join fuel (Some given) m
                  = (Returns given,
                     {| this := this m; world := w1;
                        calls := calls m ++ [CreateDirectoryCall given (Ok tt)] |})).
  { unfold prepare_destination, bind. rewrite Hres.
    unfold call_createDirectory, invoke. rewrite Hcreate. reflexivity. }
  split.
  - destruct (copySelection_run d fuel (Some given) given m _ Hd Hsel Hprep)
      as (att & w' & Hatt & Hrun).
    eexists _, _, _. split; [exact Hrun |]. simpl.
    split; [reflexivity |]. split; [now rewrite <- app_assoc |].
    constructor; [now split |].
    apply Forall_forall. intros c Hc. apply in_map_iff in Hc.
    destruct Hc as [p [<- _]]. now split.
  - destruct (moveSelection_run d fuel (Some given) given m _ Hd Hsel Hprep)
      as (att & w' & Hatt & Hrun).
    eexists _, _, _. split; [exact Hrun |]. simpl.
    split; [reflexivity |]. split; [now rewrite <- app_assoc |].
    constructor; [now split |].
    apply Forall_forall. intros c Hc. apply in_map_iff in Hc.
    destruct Hc as [p [<- _]]. now split.
Qed.

(** ** Running the destination generator *)

(** One turn of the [for] loop, answered by [a]. *)
Lemma random_attempts_step (d : string) (a : Attempt) n name w1 w2 w3 (m : Machine W) :
  currentDirectory (this m) = Some d ->
  random_nextInt (Z.of_nat (List.length ADJECTIVES)) (world m) = (Ok (adjective_draw a), w1) ->
  random_nextInt (Z.of_nat (List.length NOUNS)) w1 = (Ok (noun_draw a), w2) ->
  explorer_exists (path_join d (candidate a)) w2 = (Ok (collides a), w3) ->
  random_attempts path_join (S n) name m
  = let m3 := {| this := this m; world := w3;
                 calls := calls m ++ attempt_calls path_join d [a] |} in
    if collides a then random_attempts path_join n (candidate a) m3
    else (Returns (inl (path_join d (candidate a))), m3).
Proof.
  intros Hd Hi Hj Ht. unfold candidate in Ht. simpl in Hi, Hj, Ht. simpl.
  cbv beta iota delta [bind join_current get_this ret call_nextInt call_exists invoke].
  simpl. rewrite Hi. simpl. rewrite Hj. simpl. rewrite Hd. simpl. rewrite Ht. simpl.
  rewrite <- !app_assoc. simpl.
  destruct (collides a); reflexivity.
Qed.

Lemma attempt_calls_cons d (a : Attempt) (script : list Attempt) :
  attempt_calls path_join d (a :: script)
  = attempt_calls path_join d [a] ++ attempt_calls path_join d script.
Proof. reflexivity. Qed.

(** The loop returns the candidate of the first attempt that does not
    collide. *)
Lemma random_attempts_accepts (d : string) (a : Attempt) (collided : list Attempt) :
  forall n name (m : Machine W) w',
    currentDirectory (this m) = Some d ->
    Forall (fun b => collides b = true) collided ->
    collides a = false ->
    attempts_answer path_join d (world m) (collided ++ [a]) w' ->
    List.length collided < n ->
    random_attempts path_join n name m
    = (Returns (inl (path_join d (candidate a))),
       {| this := this m; world := w';
          calls := calls m ++ attempt_calls path_join d (collided ++ [a]) |}).
Proof.
  induction collided as [| b collided IH]; intros n name m w' Hd Hall Ha Hans Hn.
  - destruct n as [| n]; [inversion Hn |]. simpl in Hans.
    inversion Hans as [| ? w1 w2 w3 ? ? ? Hi Hj Ht Hrest]; subst.
    inversion Hrest; subst.
    rewrite (random_attempts_step d a n name w1 w2 w' m Hd Hi Hj Ht). simpl.
    now rewrite Ha.
  - destruct n as [| n]; [inversion Hn |]. simpl in Hans, Hn.
    inversion Hans as [| ? w1 w2 w3 ? ? ? Hi Hj Ht Hrest]; subst.
    inversion Hall as [| ? ? Hb Hall']; subst.
    rewrite (random_attempts_step d b n name w1 w2 w3 m Hd Hi Hj Ht). simpl.
    rewrite Hb.
    match goal with |- context [random_attempts _ n _ ?m3] =>
      rewrite (IH n (candidate b) m3 w' Hd Hall' Ha Hrest) by lia end.
    simpl. rewrite <- app_assoc. reflexivity.
Qed.

Lemma last_cons (x : string) (l : list string) (name : string) :
  last (x :: l) name = last l x.
Proof.
  revert x name. induction l as [| y l IH]; intros x name; [reflexivity |].
  change (last (y :: l) name = last (y :: l) x). now rewrite !IH.
Qed.

(** The loop runs to its end when every attempt collides, holding the last
    name generated. *)
Lemma random_attempts_exhausts (d : string) (script : list Attempt) :
  forall name (m : Machine W) w',
    currentDirectory (this m) = Some d ->
    Forall (fun b => collides b = true) script ->
    attempts_answer path_join d (world m) script w' ->
    random_attempts path_join (List.length script) name m
    = (Returns (inr (last_candidate script name)),
       {| this := this m; world := w';
          calls := calls m ++ attempt_calls path_join d script |}).
Proof.
  induction script as [| b script IH]; intros name m w' Hd Hall Hans.
  - inversion Hans; subst. simpl. unfold ret. rewrite app_nil_r.
    destruct m; reflexivity.
  - inversion Hans as [| ? w1 w2 w3 ? ? ? Hi Hj Ht Hrest]; subst.
    inversion Hall as [| ? ? Hb Hall']; subst.
    change (List.length (b :: script)) with (S (List.length script)).
    rewrite (random_attempts_step d b _ name w1 w2 w3 m Hd Hi Hj Ht). simpl.
    rewrite Hb.
    match goal with |- context [random_attempts _ _ _ ?m3] =>
      rewrite (IH (candidate b) m3 w' Hd Hall' Hrest) end.
    simpl. rewrite <- app_assoc. unfold last_candidate. simpl map.
    now rewrite last_cons.
Qed.

(** The numbering loop returns the first numbered name that is free. *)
Lemma number_name_accepts (d name : string) (k : nat) :
  forall counter fuel (m : Machine W) w',
    currentDirectory (this m) = Some d ->
    probes_answer path_join d name counter (world m) (repeat true k ++ [false]) w' ->
    k < fuel ->
    number_name path_join fuel name counter m
    = (Returns (path_join d (name ++ "-" ++ decimal (counter + k))%string),
       {| this := this m; world := w';
          calls := calls m ++ probe_calls path_join d name counter (repeat true k ++ [false]) |}).
Proof.
  induction k as [| k IH]; intros counter fuel m w' Hd Hans Hfuel;
    (destruct fuel as [| fuel]; [inversion Hfuel |]); simpl in Hans;
    inversion Hans as [| ? ? w1 ? ? ? Ht Hrest]; subst; simpl in Ht; simpl;
    cbv beta iota delta [bind join_current get_this ret call_exists invoke];
    simpl; rewrite Hd, Ht; simpl.
  - inversion Hrest; subst. rewrite Hd, Nat.add_0_r. reflexivity.
  - match goal with |- context [number_name _ fuel _ _ ?m1] =>
      rewrite (IH (S counter) fuel m1 w' Hd Hrest) by lia end.
    simpl. rewrite <- app_assoc, Nat.add_succ_r. reflexivity.
Qed.

Lemma attempt_calls_counts (d : string) (script : list Attempt) :
  List.length (filter is_nextInt_call (attempt_calls path_join d script))
  = 2 * List.length script /\
  List.length (filter is_exists_call (attempt_calls path_join d script))
  = List.length script.
Proof.
  induction script as [| a script [IHn IHe]]; [split; reflexivity |].
  rewrite attempt_calls_cons, !filter_app, !length_app, IHn, IHe.
  simpl. split; lia.
Qed.

(** ** Claims on the generated destination *)

(** C4.  Without an explicit destination, the resolved path is determined
    by the answers of [nextInt] and [exists]: when the collaborators answer
    at most nine colliding attempts and then an attempt that does not
    collide, the resolution (with any fuel) returns the path of that last
    candidate, [join(currentDirectory, adjective-noun)], having drawn an
    adjective index then a noun index and checked existence once per
    attempt, in this order, and nothing more.  In particular, draws 2 then 5
    and a candidate that does not exist make [copySelection()] resolve
    [join(currentDirectory, ADJECTIVES[2]-NOUNS[5])]; and a first candidate
    that exists followed by a second that does not gives the second
    candidate after exactly two existence checks. *)
Theorem generated_destination_first_free (d : string) (m : Machine W) :
  currentDirectory (this m) = Some d ->
  (forall fuel collided a w',
     Forall (fun b => collides b = true) collided ->
     collides a = false ->
     List.length collided < 10 ->
     attempts_answer path_join d (world m) (collided ++ [a]) w' ->
     resolveDestination path_join fuel None m
     = (Returns (path_join d (candidate a)),
        {| this := this m; world := w';
           calls := calls m ++ attempt_calls path_join d (collided ++ [a]) |}) /\
     List.length (filter is_nextInt_call (attempt_calls path_join d (collided ++ [a])))
     = 2 * S (List.length collided) /\
     List.length (filter is_exists_call (attempt_calls path_join d (collided ++ [a])))
     = S (List.length collided))
  /\
  (forall fuel w1 w2 w3 w4,
     selectedEntries (this m) <> [] ->
     random_nextInt (Z.of_nat (List.length ADJECTIVES)) (world m) = (Ok 2%Z, w1) ->
     random_nextInt (Z.of_nat (List.length NOUNS)) w1 = (Ok 5%Z, w2) ->
     explorer_exists
       (path_join d (nth 2 ADJECTIVES "" ++ "-" ++ nth 5 NOUNS "")%string) w2
     = (Ok false, w3) ->
     manipulator_createDirectory
       (path_join d (nth 2 ADJECTIVES "" ++ "-" ++ nth 5 NOUNS "")%string) w3
     = (Ok tt, w4) ->
     exists result m',
       copySelection path_join fuel None m = (Returns result, m') /\
       destinationPath result
       = Some (path_join d (nth 2 ADJECTIVES "" ++ "-" ++ nth 5 NOUNS "")%string))
  /\
  (forall fuel first second w',
     collides first = true ->
     collides second = false ->
     attempts_answer path_join d (world m) [first; second] w' ->
     exists m' new,
       resolveDestination path_join fuel None m
       = (Returns (path_join d (candidate second)), m') /\
       calls m' = calls m ++ new /\
       List.length (filter is_exists_call new) = 2).
Proof.
  intros Hd.
  assert (General : forall fuel collided a w',
    Forall (fun b => collides b = true) collided ->
    collides a = false ->
    List.length collided < 10 ->
    attempts_answer path_join d (world m) (collided ++ [a]) w' ->
    resolveDestination path_join fuel None m
    = (Returns (path_join d (candidate a)),
       {| this := this m; world := w';
          calls := calls m ++ attempt_calls path_join d (collided ++ [a]) |})).
  { intros fuel collided a w' Hall Ha Hlen Hans.
    unfold resolveDestination, bind.
    now rewrite (random_attempts_accepts d a collided 10 "" m w' Hd Hall Ha Hans Hlen). }
  split; [| split].
  - intros fuel collided a w' Hall Ha Hlen Hans.
    split; [now apply General |].
    destruct (attempt_calls_counts d (collided ++ [a])) as [Hn He].
    rewrite Hn, He, length_app. simpl. split; lia.
  - intros fuel w1 w2 w3 w4 Hsel Hi Hj Ht Hcreate.
    pose (a := {| adjective_draw := 2; noun_draw := 5; collides := false |}).
    assert (Hans : attempts_answer path_join d (world m) ([] ++ [a]) w3).
    { simpl. apply attempts_next with (w1 := w1) (w2 := w2) (w3 := w3);
        [exact Hi | exact Hj | exact Ht | constructor]. }
    pose proof (General fuel [] a w3 (Forall_nil _) eq_refl
                        (Nat.lt_0_succ 9) Hans) as Hres.
    assert (Hprep : prepare_destination path_join fuel None m
                    = (Returns (path_join d (candidate a)),
                       {| this := this m; world := w4;
                          calls := (calls m ++ attempt_calls path_join d ([] ++ [a]))
                                   ++ [CreateDirectoryCall (path_join d (candidate a)) (Ok tt)] |})).
    { unfold prepare_destination, bind. rewrite Hres.
      unfold call_createDirectory, invoke. simpl world.
      change (candidate a) with (nth 2 ADJECTIVES "" ++ "-" ++ nth 5 NOUNS "")%string.
      rewrite Hcreate. reflexivity. }
    destruct (copySelection_run d fuel None _ m _ Hd Hsel Hprep)
      as (att & w' & _ & Hrun).
    eexists _, _. split; [exact Hrun | reflexivity].
  - intros fuel first second w' Hfirst Hsecond Hans.
    assert (Hall : Forall (fun b => collides b = true) [first])
      by (constructor; [assumption | constructor]).
    assert (Hlen : List.length [first] < 10) by (simpl; lia).
    pose proof (General fuel [first] second w' Hall Hsecond Hlen Hans) as Hres.
    eexists _, _. split; [exact Hres |]. split; [reflexivity |].
    apply (attempt_calls_counts d [first; second]).
Qed.

(** C5.  When the collaborators answer ten attempts that all collide, the
    name of the tenth is kept as base; when the explorer then answers that
    [base-1] ... [base-k] exist and [base-(k+1)] does not, the resolution
    (given fuel for these [k+1] turns) has probed exactly these numbered
    paths, in this order, and returns the path of [base-(k+1)]. *)
Theorem numbering_after_ten_collisions (d : string) (script : list Attempt) (k fuel : nat)
    (w1 w' : W) (m : Machine W) :
  currentDirectory (this m) = Some d ->
  List.length script = 10 ->
  Forall (fun b => collides b = true) script ->
  attempts_answer path_join d (world m) script w1 ->
  probes_answer path_join d (last_candidate script "") 1 w1 (repeat true k ++ [false]) w' ->
  k < fuel ->
  (forall a, nth_error script 9 = Some a -> last_candidate script "" = candidate a) /\
  resolveDestination path_join fuel None m
  = (Returns (path_join d (last_candidate script "" ++ "-" ++ decimal (S k))%string),
     {| this := this m; world := w';
        calls := calls m ++ attempt_calls path_join d script
                 ++ probe_calls path_join d (last_candidate script "") 1
                                (repeat true k ++ [false]) |}).
Proof.
  intros Hd Hlen Hall Hans Hprobes Hfuel. split.
  - intros a Ha. unfold last_candidate.
    do 10 (destruct script as [| ? script]; [discriminate |]).
    destruct script; [| discriminate]. simpl in Ha. inversion Ha; subst. reflexivity.
  - unfold resolveDestination, bind. rewrite <- Hlen.
    rewrite (random_attempts_exhausts d script "" m w1 Hd Hall Hans).
    match goal with |- number_name _ _ _ _ ?m1 = _ =>
      rewrite (number_name_accepts d (last_candidate script "") k 1 fuel m1 w' Hd Hprobes Hfuel)
    end.
    simpl. now rewrite <- app_assoc.
Qed.

(** Every reachable state with a selection meets the conditions under which
    the batches are described above. *)
Lemma reachable_ready (m : Machine W) :
  reachable path_join m ->
  selectedEntries (this m) <> [] ->
  consistent (this m) /\ exists d, currentDirectory (this m) = Some d.
Proof.
  intros Hm Hsel. pose proof (reachable_invariant m Hm) as Hinv.
  split; [apply Hinv | now apply invariant_directory].
Qed.

End Verification.

(** * Further properties of the class *)

Lemma includes_false (l : list string) (x : string) :
  includes l x = false <-> ~ In x l.
Proof.
  rewrite <- includes_In. destruct (includes l x); split; congruence.
Qed.

Lemma without_absent (x : string) (l : list string) :
  ~ In x l -> without x l = l.
Proof.
  intros Hx. unfold without. induction l as [| y l IH]; [reflexivity |].
  simpl. destruct (String.eqb y x) eqn:E.
  - apply String.eqb_eq in E. subst. exfalso. apply Hx. now left.
  - simpl. rewrite IH; [reflexivity |]. intros H. apply Hx. now right.
Qed.

Lemma without_last (x : string) (l : list string) :
  ~ In x l -> without x (l ++ [x]) = l.
Proof.
  intros Hx. unfold without. rewrite filter_app. simpl.
  rewrite String.eqb_refl. simpl. rewrite app_nil_r. now apply without_absent.
Qed.

Lemma includes_set_add (s : list string) (x y : string) :
  includes (set_add s x) y = includes s y || String.eqb y x.
Proof.
  destruct (includes (set_add s x) y) eqn:E.
  - apply includes_In, In_set_add in E. symmetry. apply orb_true_iff.
    destruct E as [E | ->]; [left; now apply includes_In | right; apply String.eqb_refl].
  - apply includes_false in E. symmetry. apply orb_false_iff. split.
    + apply includes_false. intros H. apply E, In_set_add. now left.
    + apply String.eqb_neq. intros ->. apply E, In_set_add. now right.
Qed.

Lemma includes_without (x y : string) (l : list string) :
  includes (without x l) y = includes l y && negb (String.eqb y x).
Proof.
  destruct (includes (without x l) y) eqn:E.
  - apply includes_In, In_without in E. destruct E as [Hin Hne]. symmetry.
    apply andb_true_iff. split; [now apply includes_In |].
    apply negb_true_iff, String.eqb_neq, Hne.
  - apply includes_false in E. symmetry. apply andb_false_iff.
    destruct (String.eqb y x) eqn:Eyx; [now right | left].
    apply includes_false. intros Hin. apply E, In_without. split; [assumption |].
    now apply String.eqb_neq.
Qed.

(** Adding the names of a list without duplicates to a set that holds none
    of them appends the list. *)
Lemma fold_set_add_fresh (l : list string) :
  forall s, NoDup l -> (forall x, In x l -> ~ In x s) ->
            fold_left set_add l s = s ++ l.
Proof.
  induction l as [| a l IH]; intros s Hnd Hfresh; simpl.
  - now rewrite app_nil_r.
  - inversion Hnd as [| ? ? Ha Hnd']; subst.
    assert (E : includes s a = false).
    { apply includes_false, Hfresh. now left. }
    unfold set_add at 2. rewrite E. rewrite IH; [now rewrite <- app_assoc | assumption |].
    intros x Hx Hin. apply in_app_iff in Hin. destruct Hin as [Hin | [-> | []]].
    + apply (Hfresh x); [now right | assumption].
    + contradiction.
Qed.

Section Selection.

Context {W : Type}.
Context {explorer : IFileSystemExplorer W}.
Context {manipulator : IFileSystemManipulator W}.
Context {random : IRandomProvider W}.
Variable path_join : string -> string -> string.

(** X1.  Selecting a name that is not among the entries throws the
    not-found error naming it and changes nothing. *)
Theorem select_unknown_rejected (entryName : string) (m : Machine W) :
  ~ In entryName (entries (this m)) ->
  select entryName m = (Throws (EntryNotFound entryName), m).
Proof.
  intros Hx. apply includes_false in Hx. unfold select.
  cbv beta iota delta [bind get_this set_this throw]. simpl. now rewrite Hx.
Qed.

(** X2.  Selecting a name of the entries returns; the name is then
    selected, the selection status of every other name is what it was, and
    the entries, the current directory and the collaborators are untouched. *)
Theorem select_listed (entryName : string) (m : Machine W) :
  In entryName (entries (this m)) ->
  exists sel,
    select entryName m
    = (Returns tt,
       {| this := with_selectedEntries sel (this m);
          world := world m; calls := calls m |}) /\
    includes sel entryName = true /\
    (forall other, other <> entryName ->
                   includes sel other = includes (selectedEntries (this m)) other).
Proof.
  intros Hx. apply includes_In in Hx.
  exists (set_add (selectedEntries (this m)) entryName). split; [| split].
  - unfold select. cbv beta iota delta [bind get_this set_this throw]. simpl.
    now rewrite Hx.
  - rewrite includes_set_add, String.eqb_refl. apply orb_true_r.
  - intros other Hne. rewrite includes_set_add.
    apply String.eqb_neq in Hne. rewrite Hne. apply orb_false_r.
Qed.

(** X3.  Selecting is idempotent.  A name that is listed and already
    selected is selected again without any change.  And whatever the name,
    calling [select] once more on the state the first call left, whether
    that call returned or threw, ends as the first call did and leaves that
    state as it is. *)
Theorem select_idempotent (entryName : string) (m : Machine W) :
  (In entryName (entries (this m)) ->
   In entryName (selectedEntries (this m)) ->
   select entryName m = (Returns tt, m)) /\
  select entryName (snd (select entryName m))
  = (fst (select entryName m), snd (select entryName m)).
Proof.
  split.
  - intros Hx Hsel. apply includes_In in Hx. apply includes_In in Hsel.
    unfold select. cbv beta iota delta [bind get_this set_this throw]. simpl.
    rewrite Hx. simpl. unfold set_add. rewrite Hsel.
    destruct m as [[cd es sel] w cs]; reflexivity.
  - unfold select. cbv beta iota delta [bind get_this set_this throw]. simpl.
    destruct (includes (entries (this m)) entryName) eqn:E; simpl; rewrite E; simpl;
      [| reflexivity].
    unfold with_selectedEntries. simpl.
    assert (H : set_add (set_add (selectedEntries (this m)) entryName) entryName
                = set_add (selectedEntries (this m)) entryName).
    { unfold set_add at 1.
      rewrite includes_set_add, String.eqb_refl, orb_true_r. reflexivity. }
    now rewrite H.
Qed.

(** X4.  After [deselect] the name is not selected and the selection status
    of every other name is what it was; deselecting a name that is not
    selected changes nothing and is no error. *)
Theorem deselect_removes (entryName : string) (m : Machine W) :
  (exists sel,
     deselect entryName m
     = (Returns tt,
        {| this := with_selectedEntries sel (this m);
           world := world m; calls := calls m |}) /\
     includes sel entryName = false /\
     (forall other, other <> entryName ->
                    includes sel other = includes (selectedEntries (this m)) other)) /\
  (~ In entryName (selectedEntries (this m)) -> deselect entryName m = (Returns tt, m)).
Proof.
  split.
  - exists (without entryName (selectedEntries (this m))). split; [reflexivity | split].
    + rewrite includes_without, String.eqb_refl. apply andb_false_r.
    + intros other Hne. rewrite includes_without.
      apply String.eqb_neq in Hne. rewrite Hne. apply andb_true_r.
  - intros Hx. unfold deselect, set_this, with_selectedEntries.
    rewrite (without_absent entryName _ Hx). destruct m as [[cd es sel] w cs]; reflexivity.
Qed.

(** X5.  Selecting a listed name that was not selected and deselecting it
    again gives back the machine one started from. *)
Theorem select_then_deselect (entryName : string) (m : Machine W) :
  In entryName (entries (this m)) ->
  ~ In entryName (selectedEntries (this m)) ->
  (select entryName ;; deselect entryName) m = (Returns tt, m).
Proof.
  intros Hx Hsel. apply includes_In in Hx.
  unfold select, deselect. cbv beta iota delta [bind get_this set_this throw]. simpl.
  rewrite Hx. simpl. unfold with_selectedEntries. simpl.
  unfold set_add. apply includes_false in Hsel. rewrite Hsel.
  apply includes_false in Hsel. rewrite (without_last entryName _ Hsel).
  destruct m as [[cd es sel] w cs]; reflexivity.
Qed.

(** X6.  After [selectAll] a name is selected exactly when it was selected
    before or is one of the entries; nothing else changes. *)
Theorem selectAll_selects_entries (m : Machine W) :
  exists sel,
    selectAll m
    = (Returns tt,
       {| this := with_selectedEntries sel (this m);
          world := world m; calls := calls m |}) /\
    (forall x, includes sel x
               = includes (selectedEntries (this m)) x || includes (entries (this m)) x).
Proof.
  exists (fold_left set_add (entries (this m)) (selectedEntries (this m))).
  split; [reflexivity |]. intros x.
  destruct (includes (fold_left set_add (entries (this m)) (selectedEntries (this m))) x) eqn:E.
  - apply includes_In, In_fold_set_add in E. symmetry. apply orb_true_iff.
    destruct E; [left | right]; now apply includes_In.
  - apply includes_false in E. symmetry. apply orb_false_iff.
    split; apply includes_false; intros H; apply E, In_fold_set_add; tauto.
Qed.

(** X7.  Loading a directory whose listing holds no name twice and
    selecting everything selects the listing, in its order. *)
Theorem load_then_selectAll (directoryPath : string) (listed : list string) (w1 : W)
    (m : Machine W) :
  explorer_listEntries directoryPath (world m) = (Ok listed, w1) ->
  NoDup listed ->
  (listEntries directoryPath ;; selectAll ;; getSelectedEntries) m
  = (Returns listed,
     {| this := {| currentDirectory := Some directoryPath;
                   entries := listed;
                   selectedEntries := listed |};
        world := w1;
        calls := calls m ++ [ListEntriesCall directoryPath (Ok listed)] |}).
Proof.
  intros Hlist Hnd.
  unfold listEntries, call_listEntries, selectAll, getSelectedEntries.
  cbv beta iota delta [bind get_this set_this ret invoke]. simpl.
  rewrite Hlist. simpl. unfold with_selectedEntries. simpl.
  rewrite (fold_set_add_fresh listed [] Hnd) by (intros x _ []).
  reflexivity.
Qed.

End Selection.

(** The names a batch leaves selected are the names of its errors. *)
Lemma failed_names kind (att : list (string * Answer unit)) :
  NoDup (map fst att) ->
  fold_left (fun acc s => without s acc) (successes att) (map fst att)
  = map fileName (failures kind att).
Proof.
  intros Hnd. rewrite without_each_filter.
  induction att as [| [entry o] att IH]; [reflexivity |].
  simpl in Hnd. inversion Hnd as [| ? ? Hentry Hnd']; subst.
  assert (Hrest : forall extra,
            (forall x, In x extra -> x = entry) ->
            filter (fun e => negb (includes (extra ++ successes att) e)) (map fst att)
            = filter (fun e => negb (includes (successes att) e)) (map fst att)).
  { intros extra Hextra. apply filter_ext_in. intros x Hx. f_equal.
    destruct (includes (extra ++ successes att) x) eqn:E.
    - apply includes_In, in_app_iff in E. destruct E as [E | E].
      + apply Hextra in E. subst. contradiction.
      + symmetry. now apply includes_In.
    - apply includes_false in E. symmetry. apply includes_false.
      intros H. apply E, in_app_iff. now right. }
  destruct o as [u | message].
  - change (successes ((entry, Ok u) :: att)) with ([entry] ++ successes att).
    change (map fst ((entry, Ok u) :: att)) with (entry :: map fst att).
    match goal with |- filter ?f (entry :: ?l) = _ =>
      change (filter f (entry :: l))
        with (if f entry then entry :: filter f l else filter f l) end.
    cbv beta.
    assert (E : includes ([entry] ++ successes att) entry = true)
      by (apply includes_In; now left).
    rewrite E. change (negb true) with false. cbv iota.
    change (failures kind ((entry, Ok u) :: att)) with (failures kind att).
    rewrite (Hrest [entry]); [now apply IH |]. intros x [<- | []]. reflexivity.
  - change (successes ((entry, Fails message) :: att)) with ([] ++ successes att).
    change (map fst ((entry, Fails message) :: att)) with (entry :: map fst att).
    match goal with |- filter ?f (entry :: ?l) = _ =>
      change (filter f (entry :: l))
        with (if f entry then entry :: filter f l else filter f l) end.
    cbv beta.
    assert (E : includes ([] ++ successes att) entry = false).
    { apply includes_false. simpl. intros H. apply In_successes in H.
      destruct H as [u Hu]. apply Hentry.
      change entry with (fst (entry, @Ok unit u)). now apply in_map. }
    rewrite E. change (negb false) with true. cbv iota.
    change (map fileName (failures kind ((entry, Fails message) :: att)))
      with (entry :: map fileName (failures kind att)).
    f_equal. now apply IH.
Qed.

Section Operations.

Context {W : Type}.
Context {explorer : IFileSystemExplorer W}.
Context {manipulator : IFileSystemManipulator W}.
Context {random : IRandomProvider W}.
Variable path_join : string -> string -> string.

(** X9.  When an operation returns, the entries it leaves selected are, in
    order, the entries named in the errors of its result: what is still
    selected is what failed. *)
Theorem selection_left_is_errors (d : string) (m : Machine W) :
  currentDirectory (this m) = Some d ->
  selectedEntries (this m) <> [] ->
  NoDup (selectedEntries (this m)) ->
  (exists result m',
     deleteSelection path_join m = (Returns result, m') /\
     selectedEntries (this m') = map fileName (errors result)) /\
  (forall fuel destinationPath resolved m1,
     prepare_destination path_join fuel destinationPath m = (Returns resolved, m1) ->
     (exists result m',
        copySelection path_join fuel destinationPath m = (Returns result, m') /\
        selectedEntries (this m') = map fileName (errors result)) /\
     (exists result m',
        moveSelection path_join fuel destinationPath m = (Returns result, m') /\
        selectedEntries (this m') = map fileName (errors result))).
Proof.
  intros Hd Hsel Hnd. split.
  - destruct (deleteSelection_run path_join d m Hd Hsel) as (att & w' & Hatt & Hrun).
    eexists _, _. split; [exact Hrun |]. simpl.
    rewrite <- Hatt. apply failed_names. now rewrite Hatt.
  - intros fuel destinationPath resolved m1 Hprep. split.
    + destruct (copySelection_run path_join d fuel destinationPath resolved m m1
                  Hd Hsel Hprep) as (att & w' & Hatt & Hrun).
      eexists _, _. split; [exact Hrun |]. simpl.
      rewrite <- Hatt. apply failed_names. now rewrite Hatt.
    + destruct (moveSelection_run path_join d fuel destinationPath resolved m m1
                  Hd Hsel Hprep) as (att & w' & Hatt & Hrun).
      eexists _, _. split; [exact Hrun |]. simpl.
      rewrite <- Hatt. apply failed_names. now rewrite Hatt.
Qed.

(** X10.  Calling [deleteSelection] again after it returned retries the
    entries that failed and only them: with no error the second call throws
    the nothing-selected error; otherwise it returns, having called the
    manipulator once for each name of the first call's errors, in order. *)
Theorem deleteSelection_retry (d : string) (m m1 : Machine W) (first : OperationResult) :
  currentDirectory (this m) = Some d ->
  NoDup (selectedEntries (this m)) ->
  deleteSelection path_join m = (Returns first, m1) ->
  (errors first = [] -> deleteSelection path_join m1 = (Throws NothingSelected, m1)) /\
  (errors first <> [] ->
   exists att second m2,
     deleteSelection path_join m1 = (Returns second, m2) /\
     map fst att = map fileName (errors first) /\
     calls m2 = calls m1 ++ map (fun p => DeleteCall (path_join d (fst p)) (snd p)) att).
Proof.
  intros Hd Hnd Hfirst.
  assert (Hsel : selectedEntries (this m) <> []).
  { intros Hnil. rewrite deleteSelection_unfold, Hnil in Hfirst. discriminate. }
  destruct (deleteSelection_run path_join d m Hd Hsel) as (att & w' & Hatt & Hrun).
  rewrite Hrun in Hfirst. inversion Hfirst; subst first m1; clear Hfirst. simpl.
  rewrite <- Hatt. rewrite (failed_names delete att) by now rewrite Hatt.
  split.
  - intros Hnil. rewrite deleteSelection_unfold. simpl. now rewrite Hnil.
  - intros Hne.
    match goal with |- context [deleteSelection path_join ?m1] =>
      destruct (deleteSelection_run path_join d m1 eq_refl) as (att2 & w2 & Hatt2 & Hrun2)
    end.
    + simpl. intros Hnil. apply Hne. now apply map_eq_nil in Hnil.
    + simpl in Hatt2.
      eexists att2, _, _. split; [exact Hrun2 |]. split; [exact Hatt2 | reflexivity].
Qed.

(** X11.  When the manipulator cannot create the resolved destination,
    [copySelection] and [moveSelection] throw its error, transfer nothing
    (the failed [createDirectory] is their last call) and leave the three
    fields as they were. *)
Theorem createDirectory_failure_aborts fuel destinationPath (resolved message : string)
    (w2 : W) (m m1 : Machine W) :
  selectedEntries (this m) <> [] ->
  resolveDestination path_join fuel destinationPath m = (Returns resolved, m1) ->
  manipulator_createDirectory resolved (world m1) = (Fails message, w2) ->
  copySelection path_join fuel destinationPath m
  = (Throws (Raised message),
     {| this := this m; world := w2;
        calls := calls m1 ++ [CreateDirectoryCall resolved (Fails message)] |}) /\
  moveSelection path_join fuel destinationPath m
  = (Throws (Raised message),
     {| this := this m; world := w2;
        calls := calls m1 ++ [CreateDirectoryCall resolved (Fails message)] |}).
Proof.
  intros Hsel Hres Hcreate.
  assert (G : Nat.eqb (List.length (selectedEntries (this m))) 0 = false).
  { destruct (selectedEntries (this m)); [contradiction | reflexivity]. }
  assert (Hthis : this m1 = this m).
  { pose proof (keeps_this_resolveDestination path_join fuel destinationPath m) as K.
    now rewrite Hres in K. }
  assert (Hprep : prepare_destination path_join fuel destinationPath m
                  = (Throws (Raised message),
                     {| this := this m; world := w2;
                        calls := calls m1 ++ [CreateDirectoryCall resolved (Fails message)] |})).
  { unfold prepare_destination, bind. rewrite Hres.
    unfold call_createDirectory, invoke. rewrite Hcreate, Hthis. reflexivity. }
  rewrite copySelection_unfold, moveSelection_unfold, G, Hprep. split; reflexivity.
Qed.

End Operations.

Section Resolution.

Context {W : Type}.
Context {explorer : IFileSystemExplorer W}.
Context {manipulator : IFileSystemManipulator W}.
Context {random : IRandomProvider W}.
Variable path_join : string -> string -> string.

Lemma probes_within_bind {A B} (draws checks draws' checks' : nat)
    (c : M W A) (k : A -> M W B) :
  probes_within W draws checks c ->
  (forall a, probes_within W draws' checks' (k a)) ->
  probes_within W (draws + draws') (checks + checks') (bind c k).
Proof.
  intros Hc Hk m. unfold bind.
  destruct (Hc m) as (new & Hcalls & Hall & Hn & He).
  destruct (c m) as [[a | e |] m1]; simpl in *.
  - destruct (Hk a m1) as (new' & Hcalls' & Hall' & Hn' & He').
    exists (new ++ new'). rewrite Hcalls', Hcalls, app_assoc.
    split; [reflexivity |]. split; [now apply Forall_app |].
    rewrite !filter_app, !length_app. split; lia.
  - exists new. repeat split; try assumption; lia.
  - exists new. repeat split; try assumption; lia.
Qed.

Lemma probes_within_silent {A} (c : M W A) :
  (forall m, calls (snd (c m)) = calls m) -> probes_within W 0 0 c.
Proof.
  intros H m. exists []. rewrite H, app_nil_r. repeat split; simpl; auto.
Qed.

Lemma probes_within_join_current (name : string) :
  probes_within W 0 0 (join_current path_join name).
Proof.
  apply probes_within_silent. intros m. unfold join_current, bind, get_this.
  destruct (currentDirectory (this m)); reflexivity.
Qed.

Lemma probes_within_nextInt (max : Z) : probes_within W 1 0 (call_nextInt max).
Proof.
  intros m. unfold call_nextInt, invoke.
  destruct (random_nextInt max (world m)) as [[i | message] w1]; simpl;
    (eexists [_]; split; [reflexivity |]; repeat constructor).
Qed.

Lemma probes_within_exists (filePath : string) :
  probes_within W 0 1 (call_exists filePath).
Proof.
  intros m. unfold call_exists, invoke.
  destruct (explorer_exists filePath (world m)) as [[t | message] w1]; simpl;
    (eexists [_]; split; [reflexivity |]; repeat constructor).
Qed.

Lemma probes_within_weaken {A} (draws checks draws' checks' : nat) (c : M W A) :
  probes_within W draws checks c ->
  draws <= draws' -> checks <= checks' ->
  probes_within W draws' checks' c.
Proof.
  intros Hc Hd Hk m. destruct (Hc m) as (new & Hcalls & Hall & Hn & He).
  exists new. repeat split; try assumption; lia.
Qed.

Lemma probes_within_ret {A} (a : A) (draws checks : nat) :
  probes_within W draws checks (ret (W := W) a).
Proof.
  apply (probes_within_weaken 0 0); [| lia | lia].
  apply probes_within_silent. reflexivity.
Qed.

Lemma probes_within_random_attempts (n : nat) :
  forall name, probes_within W (2 * n) n (random_attempts path_join n name).
Proof.
  induction n as [| n IH]; intros name.
  - apply probes_within_silent. reflexivity.
  - change (random_attempts path_join (S n) name)
      with (i <- call_nextInt (Z.of_nat (List.length ADJECTIVES)) ;;
            j <- call_nextInt (Z.of_nat (List.length NOUNS)) ;;
            fullPath <- join_current path_join
                          (word_at ADJECTIVES i ++ "-" ++ word_at NOUNS j)%string ;;
            taken <- call_exists fullPath ;;
            if negb taken then ret (inl fullPath)
            else random_attempts path_join n
                   (word_at ADJECTIVES i ++ "-" ++ word_at NOUNS j)%string).
    apply (probes_within_weaken (1 + (1 + (0 + (0 + 2 * n)))) (0 + (0 + (0 + (1 + n)))));
      [| lia | lia].
    apply probes_within_bind; [apply probes_within_nextInt | intros i].
    apply probes_within_bind; [apply probes_within_nextInt | intros j].
    apply probes_within_bind; [apply probes_within_join_current | intros fullPath].
    apply probes_within_bind; [apply probes_within_exists | intros taken].
    destruct taken; simpl; [apply IH | apply probes_within_ret].
Qed.

Lemma probes_within_number_name (fuel : nat) :
  forall name counter,
    probes_within W 0 fuel (number_name path_join fuel name counter).
Proof.
  induction fuel as [| fuel IH]; intros name counter.
  - apply probes_within_silent. reflexivity.
  - change (number_name path_join (S fuel) name counter)
      with (probed <- join_current path_join (name ++ "-" ++ decimal counter)%string ;;
            taken <- call_exists probed ;;
            if taken then number_name path_join fuel name (S counter)
            else join_current path_join (name ++ "-" ++ decimal counter)%string).
    apply (probes_within_weaken (0 + (0 + 0)) (0 + (1 + fuel))); [| lia | lia].
    apply probes_within_bind; [apply probes_within_join_current | intros probed].
    apply probes_within_bind; [apply probes_within_exists | intros taken].
    destruct taken; [apply IH |].
    apply (probes_within_weaken 0 0); [apply probes_within_join_current | lia | lia].
Qed.

(** X12.  Destination resolution touches neither the fields nor the
    manipulator: whatever it is given and however it ends, every call it
    makes is a random draw or an existence check, with at most 20 draws and
    at most 10 existence checks before the numbering loop. *)
Theorem resolveDestination_only_probes fuel destinationPath (m : Machine W) :
  this (snd (resolveDestination path_join fuel destinationPath m)) = this m /\
  exists new,
    calls (snd (resolveDestination path_join fuel destinationPath m)) = calls m ++ new /\
    Forall (fun call => is_nextInt_call call || is_exists_call call = true) new /\
    List.length (filter is_nextInt_call new) <= 20 /\
    List.length (filter is_exists_call new) <= 10 + fuel.
Proof.
  split; [apply keeps_this_resolveDestination |].
  assert (G : probes_within W (2 * 10 + 0) (10 + fuel)
                (r <- random_attempts path_join 10 "" ;;
                 match r with
                 | inl fullPath => ret fullPath
                 | inr name => number_name path_join fuel name 1
                 end)).
  { apply probes_within_bind; [apply probes_within_random_attempts | intros [p | name]].
    - apply probes_within_ret.
    - apply probes_within_number_name. }
  unfold resolveDestination. destruct destinationPath as [[| c rest] |]; try exact (G m).
  exact (probes_within_ret (String c rest) 20 (10 + fuel) m).
Qed.

(** When every existence check answers [true], the [for] loop runs to its
    end without changing the fields. *)
Lemma random_attempts_crowded (d : string) (n : nat) :
  (forall filePath w, fst (explorer_exists filePath w) = Ok true) ->
  (forall max w, exists i, fst (random_nextInt max w) = Ok i) ->
  forall name (m : Machine W),
    currentDirectory (this m) = Some d ->
    exists name' m',
      random_attempts path_join n name m = (Returns (inr name'), m') /\
      this m' = this m.
Proof.
  intros Hexists Hdraw. induction n as [| n IH]; intros name m Hd.
  - exists name, m. split; reflexivity.
  - simpl.
    cbv beta iota delta [bind join_current get_this ret call_nextInt call_exists invoke].
    simpl.
    destruct (Hdraw 20%Z (world m)) as [i Hi].
    destruct (random_nextInt 20 (world m)) as [ri w1]. simpl in Hi. subst ri. simpl.
    destruct (Hdraw 20%Z w1) as [j Hj].
    destruct (random_nextInt 20 w1) as [rj w2]. simpl in Hj. subst rj. simpl.
    rewrite Hd. simpl.
    match goal with |- context [explorer_exists ?p w2] =>
      pose proof (Hexists p w2) as Ht; destruct (explorer_exists p w2) as [rt w3] end.
    simpl in Ht. subst rt. simpl.
    match goal with |- context [random_attempts _ n ?name1 ?m3] =>
      destruct (IH name1 m3 Hd) as (name' & m' & Hrun & Hthis) end.
    exists name', m'. split; [exact Hrun | exact Hthis].
Qed.

Lemma number_name_crowded (d : string) (fuel : nat) :
  (forall filePath w, fst (explorer_exists filePath w) = Ok true) ->
  forall name counter (m : Machine W),
    currentDirectory (this m) = Some d ->
    fst (number_name path_join fuel name counter m) = Diverges.
Proof.
  intros Hexists. induction fuel as [| fuel IH]; intros name counter m Hd.
  - reflexivity.
  - simpl. cbv beta iota delta [bind join_current get_this ret call_exists invoke].
    simpl. rewrite Hd. simpl.
    match goal with |- context [explorer_exists ?p (world m)] =>
      pose proof (Hexists p (world m)) as Ht;
      destruct (explorer_exists p (world m)) as [rt w1] end.
    simpl in Ht. subst rt. simpl. now apply IH.
Qed.

(** X13.  When every path the explorer is asked about exists, the
    numbering loop never ends: with a current directory and no explicit
    destination, the resolution does not return whatever fuel it is given,
    and neither does a copy or a move of a selection. *)
Theorem resolveDestination_never_ends (d : string) (m : Machine W) :
  (forall filePath w, fst (explorer_exists filePath w) = Ok true) ->
  (forall max w, exists i, fst (random_nextInt max w) = Ok i) ->
  currentDirectory (this m) = Some d ->
  forall fuel,
    fst (resolveDestination path_join fuel None m) = Diverges /\
    (selectedEntries (this m) <> [] ->
     fst (copySelection path_join fuel None m) = Diverges /\
     fst (moveSelection path_join fuel None m) = Diverges).
Proof.
  intros Hexists Hdraw Hd fuel.
  assert (Hres : fst (resolveDestination path_join fuel None m) = Diverges).
  { unfold resolveDestination, bind.
    destruct (random_attempts_crowded d 10 Hexists Hdraw "" m Hd)
      as (name' & m' & Hrun & Hthis).
    rewrite Hrun. apply (number_name_crowded d fuel Hexists). now rewrite Hthis. }
  split; [exact Hres |]. intros Hsel.
  assert (G : Nat.eqb (List.length (selectedEntries (this m))) 0 = false).
  { destruct (selectedEntries (this m)); [contradiction | reflexivity]. }
  assert (Hprep : fst (prepare_destination path_join fuel None m) = Diverges).
  { unfold prepare_destination, bind.
    destruct (resolveDestination path_join fuel None m) as [[r | e |] m1];
      simpl in Hres; try discriminate. reflexivity. }
  rewrite copySelection_unfold, moveSelection_unfold, G.
  destruct (prepare_destination path_join fuel None m) as [[r | e |] m1];
    simpl in Hprep; try discriminate. split; reflexivity.
Qed.

End Resolution.

(** What a batch removes from the entries is what left the selection. *)
Lemma removed_is_deselected (att : list (string * Answer unit)) (es : list string) :
  fold_left (fun acc s => without s acc) (successes att) es
  = filter (fun e => negb (includes (map fst att) e)
                     || includes (fold_left (fun acc s => without s acc)
                                            (successes att) (map fst att)) e) es.
Proof.
  rewrite without_each_filter. apply filter_ext. intros e.
  destruct (includes (successes att) e) eqn:Es; simpl.
  - symmetry. apply orb_false_iff. split.
    + apply negb_false_iff, includes_In.
      apply includes_In, In_successes in Es. destruct Es as [u Hu].
      change e with (fst (e, @Ok unit u)). now apply in_map.
    + apply includes_false. rewrite In_without_each. apply includes_In in Es. tauto.
  - symmetry. apply orb_true_iff.
    destruct (includes (map fst att) e) eqn:Ea; [right | now left].
    apply includes_In, In_without_each. split; [now apply includes_In |].
    now apply includes_false.
Qed.

Section Frame.

Context {W : Type}.
Context {explorer : IFileSystemExplorer W}.
Context {manipulator : IFileSystemManipulator W}.
Context {random : IRandomProvider W}.
Variable path_join : string -> string -> string.

(** X20.  A move or a deletion that returns removes from the entries the
    names that left the selection and no other: an entry that was not
    selected, or that is still selected, stays, and the order of the entries
    that stay is kept. *)
Theorem removal_spares_the_rest (d : string) (m : Machine W) :
  currentDirectory (this m) = Some d ->
  selectedEntries (this m) <> [] ->
  (exists result m',
     deleteSelection path_join m = (Returns result, m') /\
     entries (this m')
     = filter (fun e => negb (includes (selectedEntries (this m)) e)
                        || includes (selectedEntries (this m')) e)
              (entries (this m))) /\
  (forall fuel destinationPath resolved m1,
     prepare_destination path_join fuel destinationPath m = (Returns resolved, m1) ->
     exists result m',
       moveSelection path_join fuel destinationPath m = (Returns result, m') /\
       entries (this m')
       = filter (fun e => negb (includes (selectedEntries (this m)) e)
                          || includes (selectedEntries (this m')) e)
                (entries (this m))).
Proof.
  intros Hd Hsel. split.
  - destruct (deleteSelection_run path_join d m Hd Hsel) as (att & w' & Hatt & Hrun).
    eexists _, _. split; [exact Hrun |]. simpl.
    rewrite <- Hatt. apply removed_is_deselected.
  - intros fuel destinationPath resolved m1 Hprep.
    destruct (moveSelection_run path_join d fuel destinationPath resolved m m1
                Hd Hsel Hprep) as (att & w' & Hatt & Hrun).
    eexists _, _. split; [exact Hrun |]. simpl.
    rewrite <- Hatt. apply removed_is_deselected.
Qed.

End Frame.

(** * The operations when a primitive throws [null] or [undefined] *)

Section ThrowingAgrees.

Context {W : Type}.
Context {explorer : IFileSystemExplorer W}.
Context {manipulator : IFileSystemManipulator W}.
Context {random : IRandomProvider W}.
Variable path_join : string -> string -> string.

Ltac throwing_step :=
  cbv beta iota delta [bind join_current get_this try_catch set_this ret throw
    call_copy call_move call_delete invoke attempt]; simpl.

(** For a manipulator that throws errors only, the second embedding of the
    loops is the first. *)
Lemma copy_each_agrees (resolved : string) (snapshot : list string) :
  forall errs succ (m : Machine W),
    copy_each_throwing (primitives := as_throwing manipulator) path_join
      resolved snapshot errs succ m
    = copy_each path_join resolved snapshot errs succ m.
Proof.
  induction snapshot as [| entry rest IH]; intros errs succ m; [reflexivity |].
  simpl. throwing_step. destruct (currentDirectory (this m)) as [d |]; [| reflexivity].
  simpl.
  destruct (manipulator_copy (path_join d entry) (path_join resolved entry) (world m))
    as [[[] | message] w1]; simpl; apply IH.
Qed.

Lemma move_each_agrees (resolved : string) (snapshot : list string) :
  forall errs succ (m : Machine W),
    move_each_throwing (primitives := as_throwing manipulator) path_join
      resolved snapshot errs succ m
    = move_each path_join resolved snapshot errs succ m.
Proof.
  induction snapshot as [| entry rest IH]; intros errs succ m; [reflexivity |].
  simpl. throwing_step. destruct (currentDirectory (this m)) as [d |]; [| reflexivity].
  simpl.
  destruct (manipulator_move (path_join d entry) (path_join resolved entry) (world m))
    as [[[] | message] w1]; simpl; apply IH.
Qed.

Lemma delete_each_agrees (snapshot : list string) :
  forall errs succ (m : Machine W),
    delete_each_throwing (primitives := as_throwing manipulator) path_join
      snapshot errs succ m
    = delete_each path_join snapshot errs succ m.
Proof.
  induction snapshot as [| entry rest IH]; intros errs succ m; [reflexivity |].
  simpl. throwing_step. destruct (currentDirectory (this m)) as [d |]; [| reflexivity].
  simpl.
  destruct (manipulator_delete (path_join d entry) (world m))
    as [[[] | message] w1]; simpl; apply IH.
Qed.

(** And so are the three operations. *)
Lemma operations_agree fuel destinationPath (m : Machine W) :
  copySelection_throwing (primitives := as_throwing manipulator) path_join
    fuel destinationPath m
  = copySelection path_join fuel destinationPath m /\
  moveSelection_throwing (primitives := as_throwing manipulator) path_join
    fuel destinationPath m
  = moveSelection path_join fuel destinationPath m /\
  deleteSelection_throwing (primitives := as_throwing manipulator) path_join m
  = deleteSelection path_join m.
Proof.
  unfold copySelection_throwing, moveSelection_throwing, deleteSelection_throwing,
    copySelection, moveSelection, deleteSelection, prepare_destination_throwing,
    call_createDirectory, deselect_each.
  cbv beta iota delta [bind get_this set_this ret throw]. simpl.
  destruct (Nat.eqb (List.length (selectedEntries (this m))) 0);
    [repeat split |].
  split; [| split].
  - destruct (resolveDestination path_join fuel destinationPath m) as [[resolved | e |] m0];
      try reflexivity.
    destruct (invoke (manipulator_createDirectory resolved) (CreateDirectoryCall resolved) m0)
      as [[u | e |] m1]; try reflexivity.
    now rewrite copy_each_agrees.
  - destruct (resolveDestination path_join fuel destinationPath m) as [[resolved | e |] m0];
      try reflexivity.
    destruct (invoke (manipulator_createDirectory resolved) (CreateDirectoryCall resolved) m0)
      as [[u | e |] m1]; try reflexivity.
    now rewrite move_each_agrees.
  - now rewrite delete_each_agrees.
Qed.

End ThrowingAgrees.

Section ThrowingFacts.

Context {W : Type}.
Context {explorer : IFileSystemExplorer W}.
Context {primitives : IThrowingManipulator W}.
Context {random : IRandomProvider W}.
Variable path_join : string -> string -> string.

Ltac throwing_step :=
  cbv beta iota delta [bind join_current get_this set_this ret throw attempt]; simpl.

Lemma keeps_this_prepare_destination_throwing fuel destinationPath :
  keeps_this W (prepare_destination_throwing path_join fuel destinationPath).
Proof.
  unfold prepare_destination_throwing.
  apply keeps_this_bind; [apply keeps_this_resolveDestination | intros resolved].
  apply keeps_this_bind; [apply keeps_this_invoke | intros _; apply keeps_this_ret].
Qed.

(** The copy loop changes no field, however it ends. *)
Lemma keeps_this_copy_each_throwing (resolved : string) (snapshot : list string) :
  forall errs succ,
    keeps_this W (copy_each_throwing path_join resolved snapshot errs succ).
Proof.
  induction snapshot as [| entry rest IH]; intros errs succ m; [reflexivity |].
  simpl. throwing_step. destruct (currentDirectory (this m)) as [d |]; [| reflexivity].
  simpl.
  destruct (throwing_copy (path_join d entry) (path_join resolved entry) (world m))
    as [[| message | value] w1]; simpl; try reflexivity.
  - match goal with |- context [copy_each_throwing _ _ rest ?e ?s ?m1] =>
      exact (IH e s m1) end.
  - match goal with |- context [copy_each_throwing _ _ rest ?e ?s ?m1] =>
      exact (IH e s m1) end.
Qed.

(** With a current directory, the move loop returns or is cut short by a
    nullish throw; either way it has only removed selected names from the
    entries. *)
Lemma move_each_throwing_run (d resolved : string) (snapshot : list string) :
  forall errs succ (m : Machine W),
    currentDirectory (this m) = Some d ->
    exists gone,
      incl gone snapshot /\
      this (snd (move_each_throwing path_join resolved snapshot errs succ m))
      = with_entries (fold_left (fun acc s => without s acc) gone (entries (this m)))
                     (this m) /\
      match fst (move_each_throwing path_join resolved snapshot errs succ m) with
      | Returns _ => True
      | Throws _ =>
          (exists source destination w value w',
             throwing_move source destination w = (ThrewNullish value, w')) /\
          (exists front arguments value,
             calls (snd (move_each_throwing path_join resolved snapshot errs succ m))
             = front ++ [NullishThrow move arguments value])
      | Diverges => False
      end.
Proof.
  induction snapshot as [| entry rest IH]; intros errs succ m Hd.
  - exists []. split; [apply incl_refl |]. simpl.
    split; [destruct m as [[cd es sel] w cs]; reflexivity | exact I].
  - simpl. throwing_step. rewrite Hd. simpl.
    destruct (throwing_move (path_join d entry) (path_join resolved entry) (world m))
      as [[| message | value] w1] eqn:E; simpl.
    + match goal with |- context [move_each_throwing _ _ rest ?e ?s ?m1] =>
        destruct (IH e s m1 Hd) as (gone & Hincl & Hthis & Hcase) end.
      exists (entry :: gone). split; [| split].
      * intros x [<- | Hx]; [now left | right; now apply Hincl].
      * exact Hthis.
      * exact Hcase.
    + match goal with |- context [move_each_throwing _ _ rest ?e ?s ?m1] =>
        destruct (IH e s m1 Hd) as (gone & Hincl & Hthis & Hcase) end.
      exists gone. split; [| split].
      * intros x Hx. right. now apply Hincl.
      * exact Hthis.
      * exact Hcase.
    + exists []. split; [intros x [] |]. simpl.
      split; [destruct m as [[cd es sel] w cs]; reflexivity |].
      split.
      * now exists (path_join d entry), (path_join resolved entry), (world m), value, w1.
      * now exists (calls m), [path_join d entry; path_join resolved entry], value.
Qed.

Lemma delete_each_throwing_run (d : string) (snapshot : list string) :
  forall errs succ (m : Machine W),
    currentDirectory (this m) = Some d ->
    exists gone,
      incl gone snapshot /\
      this (snd (delete_each_throwing path_join snapshot errs succ m))
      = with_entries (fold_left (fun acc s => without s acc) gone (entries (this m)))
                     (this m) /\
      match fst (delete_each_throwing path_join snapshot errs succ m) with
      | Returns _ => True
      | Throws _ =>
          (exists filePath w value w',
             throwing_delete filePath w = (ThrewNullish value, w')) /\
          (exists front arguments value,
             calls (snd (delete_each_throwing path_join snapshot errs succ m))
             = front ++ [NullishThrow delete arguments value])
      | Diverges => False
      end.
Proof.
  induction snapshot as [| entry rest IH]; intros errs succ m Hd.
  - exists []. split; [apply incl_refl |]. simpl.
    split; [destruct m as [[cd es sel] w cs]; reflexivity | exact I].
  - simpl. throwing_step. rewrite Hd. simpl.
    destruct (throwing_delete (path_join d entry) (world m))
      as [[| message | value] w1] eqn:E; simpl.
    + match goal with |- context [delete_each_throwing _ rest ?e ?s ?m1] =>
        destruct (IH e s m1 Hd) as (gone & Hincl & Hthis & Hcase) end.
      exists (entry :: gone). split; [| split].
      * intros x [<- | Hx]; [now left | right; now apply Hincl].
      * exact Hthis.
      * exact Hcase.
    + match goal with |- context [delete_each_throwing _ rest ?e ?s ?m1] =>
        destruct (IH e s m1 Hd) as (gone & Hincl & Hthis & Hcase) end.
      exists gone. split; [| split].
      * intros x Hx. right. now apply Hincl.
      * exact Hthis.
      * exact Hcase.
    + exists []. split; [intros x [] |]. simpl.
      split; [destruct m as [[cd es sel] w cs]; reflexivity |].
      split.
      * now exists (path_join d entry), (world m), value, w1.
      * now exists (calls m), [path_join d entry], value.
Qed.

Lemma copySelection_throwing_unfold fuel destinationPath (m : Machine W) :
  copySelection_throwing path_join fuel destinationPath m
  = if Nat.eqb (List.length (selectedEntries (this m))) 0 then (Throws NothingSelected, m)
    else match prepare_destination_throwing path_join fuel destinationPath m with
         | (Returns resolved, m1) =>
             match copy_each_throwing path_join resolved (selectedEntries (this m1)) [] [] m1 with
             | (Returns acc, m2) =>
                 (Returns {| destinationPath := Some resolved; errors := fst acc |},
                  {| this := with_selectedEntries
                               (fold_left (fun sel s => without s sel) (snd acc)
                                          (selectedEntries (this m2))) (this m2);
                     world := world m2; calls := calls m2 |})
             | (Throws e, m2) => (Throws e, m2)
             | (Diverges, m2) => (Diverges, m2)
             end
         | (Throws e, m1) => (Throws e, m1)
         | (Diverges, m1) => (Diverges, m1)
         end.
Proof.
  unfold copySelection_throwing, deselect_each.
  cbv beta iota delta [bind get_this set_this ret throw]. simpl.
  destruct (Nat.eqb (List.length (selectedEntries (this m))) 0); [reflexivity |].
  destruct (prepare_destination_throwing path_join fuel destinationPath m)
    as [[resolved | e |] m1]; reflexivity.
Qed.

Lemma moveSelection_throwing_unfold fuel destinationPath (m : Machine W) :
  moveSelection_throwing path_join fuel destinationPath m
  = if Nat.eqb (List.length (selectedEntries (this m))) 0 then (Throws NothingSelected, m)
    else match prepare_destination_throwing path_join fuel destinationPath m with
         | (Returns resolved, m1) =>
             match move_each_throwing path_join resolved (selectedEntries (this m1)) [] [] m1 with
             | (Returns acc, m2) =>
                 (Returns {| destinationPath := Some resolved; errors := fst acc |},
                  {| this := with_selectedEntries
                               (fold_left (fun sel s => without s sel) (snd acc)
                                          (selectedEntries (this m2))) (this m2);
                     world := world m2; calls := calls m2 |})
             | (Throws e, m2) => (Throws e, m2)
             | (Diverges, m2) => (Diverges, m2)
             end
         | (Throws e, m1) => (Throws e, m1)
         | (Diverges, m1) => (Diverges, m1)
         end.
Proof.
  unfold moveSelection_throwing, deselect_each.
  cbv beta iota delta [bind get_this set_this ret throw]. simpl.
  destruct (Nat.eqb (List.length (selectedEntries (this m))) 0); [reflexivity |].
  destruct (prepare_destination_throwing path_join fuel destinationPath m)
    as [[resolved | e |] m1]; reflexivity.
Qed.

Lemma deleteSelection_throwing_unfold (m : Machine W) :
  deleteSelection_throwing path_join m
  = if Nat.eqb (List.length (selectedEntries (this m))) 0 then (Throws NothingSelected, m)
    else match delete_each_throwing path_join (selectedEntries (this m)) [] [] m with
         | (Returns acc, m2) =>
             (Returns {| destinationPath := None; errors := fst acc |},
              {| this := with_selectedEntries
                           (fold_left (fun sel s => without s sel) (snd acc)
                                      (selectedEntries (this m2))) (this m2);
                 world := world m2; calls := calls m2 |})
         | (Throws e, m2) => (Throws e, m2)
         | (Diverges, m2) => (Diverges, m2)
         end.
Proof.
  unfold deleteSelection_throwing, deselect_each.
  cbv beta iota delta [bind get_this set_this ret throw]. simpl.
  destruct (Nat.eqb (List.length (selectedEntries (this m))) 0); reflexivity.
Qed.

Lemma move_each_throwing_null resolved entry rest errs succ (m : Machine W) :
  currentDirectory (this m) = None ->
  move_each_throwing path_join resolved (entry :: rest) errs succ m
  = (Throws NullDirectory, m).
Proof. intros Hd. simpl. throwing_step. now rewrite Hd. Qed.

Lemma delete_each_throwing_null entry rest errs succ (m : Machine W) :
  currentDirectory (this m) = None ->
  delete_each_throwing path_join (entry :: rest) errs succ m = (Throws NullDirectory, m).
Proof. intros Hd. simpl. throwing_step. now rewrite Hd. Qed.

Lemma shortened_by (fm : FileManager) (gone : list string) :
  incl gone (selectedEntries fm) ->
  shortened fm (with_entries (fold_left (fun acc s => without s acc) gone (entries fm)) fm).
Proof.
  intros Hincl. split; [reflexivity | split; [reflexivity |]].
  exists gone. split; [exact Hincl | reflexivity].
Qed.

(** X8.  What an operation that does not return has done to the fields,
    for a manipulator that may throw any value.  [copySelection] has changed
    nothing.  [moveSelection] and [deleteSelection] have changed nothing
    either, unless one of their primitives threw [null] or [undefined]
    (the last call recorded): the [catch] block then throws on [e.message]
    and the operation stops with the entries already short of the names
    moved or deleted so far, the selection and the current directory being
    as before the call. *)
Theorem failed_operation_effects fuel destinationPath (m : Machine W) :
  match fst (copySelection_throwing path_join fuel destinationPath m) with
  | Returns _ => True
  | _ => this (snd (copySelection_throwing path_join fuel destinationPath m)) = this m
  end /\
  match fst (moveSelection_throwing path_join fuel destinationPath m) with
  | Returns _ => True
  | _ =>
      this (snd (moveSelection_throwing path_join fuel destinationPath m)) = this m \/
      ((exists source destination w value w',
          throwing_move source destination w = (ThrewNullish value, w')) /\
       (exists front arguments value,
          calls (snd (moveSelection_throwing path_join fuel destinationPath m))
          = front ++ [NullishThrow move arguments value]) /\
       shortened (this m)
         (this (snd (moveSelection_throwing path_join fuel destinationPath m))))
  end /\
  match fst (deleteSelection_throwing path_join m) with
  | Returns _ => True
  | _ =>
      this (snd (deleteSelection_throwing path_join m)) = this m \/
      ((exists filePath w value w',
          throwing_delete filePath w = (ThrewNullish value, w')) /\
       (exists front arguments value,
          calls (snd (deleteSelection_throwing path_join m))
          = front ++ [NullishThrow delete arguments value]) /\
       shortened (this m) (this (snd (deleteSelection_throwing path_join m))))
  end.
Proof.
  split; [| split].
  - rewrite copySelection_throwing_unfold.
    destruct (Nat.eqb (List.length (selectedEntries (this m))) 0); [reflexivity |].
    pose proof (keeps_this_prepare_destination_throwing fuel destinationPath m) as K.
    destruct (prepare_destination_throwing path_join fuel destinationPath m)
      as [[resolved | e |] m1]; simpl in K; simpl; try exact K.
    pose proof (keeps_this_copy_each_throwing resolved (selectedEntries (this m1)) [] [] m1)
      as K'.
    destruct (copy_each_throwing path_join resolved (selectedEntries (this m1)) [] [] m1)
      as [[acc | e |] m2]; simpl in K'; simpl; [exact I | |]; now rewrite K'.
  - rewrite moveSelection_throwing_unfold.
    destruct (Nat.eqb (List.length (selectedEntries (this m))) 0) eqn:G;
      [now left |].
    pose proof (keeps_this_prepare_destination_throwing fuel destinationPath m) as K.
    destruct (prepare_destination_throwing path_join fuel destinationPath m)
      as [[resolved | e |] m1]; simpl in K; simpl; try (now left).
    destruct (currentDirectory (this m1)) as [d |] eqn:Hd.
    + destruct (move_each_throwing_run d resolved (selectedEntries (this m1)) [] [] m1 Hd)
        as (gone & Hincl & Hthis & Hcase).
      destruct (move_each_throwing path_join resolved (selectedEntries (this m1)) [] [] m1)
        as [[acc | e |] m2]; simpl in Hthis, Hcase; simpl; [exact I | | contradiction].
      right. destruct Hcase as [Hthrew Hcalls].
      split; [exact Hthrew | split; [exact Hcalls |]].
      rewrite Hthis, K. apply shortened_by. now rewrite <- K.
    + destruct (selectedEntries (this m1)) as [| x sel] eqn:Hsel.
      * rewrite K in Hsel. rewrite Hsel in G. discriminate.
      * rewrite move_each_throwing_null by assumption. now left.
  - rewrite deleteSelection_throwing_unfold.
    destruct (Nat.eqb (List.length (selectedEntries (this m))) 0) eqn:G;
      [now left |].
    destruct (currentDirectory (this m)) as [d |] eqn:Hd.
    + destruct (delete_each_throwing_run d (selectedEntries (this m)) [] [] m Hd)
        as (gone & Hincl & Hthis & Hcase).
      destruct (delete_each_throwing path_join (selectedEntries (this m)) [] [] m)
        as [[acc | e |] m2]; simpl in Hthis, Hcase; simpl; [exact I | | contradiction].
      right. destruct Hcase as [Hthrew Hcalls].
      split; [exact Hthrew | split; [exact Hcalls |]].
      rewrite Hthis. now apply shortened_by.
    + destruct (selectedEntries (this m)) as [| x sel] eqn:Hsel; [discriminate |].
      rewrite delete_each_throwing_null by assumption. now left.
Qed.

End ThrowingFacts.

(** ** The generated names *)

Lemma names_apart_holds : names_apart = true.
Proof. vm_compute. reflexivity. Qed.

Lemma candidate_drawing (a : Attempt) :
  in_range a ->
  candidate a
  = candidate (drawing (Z.to_nat (adjective_draw a)) (Z.to_nat (noun_draw a))) /\
  In (Z.to_nat (adjective_draw a)) (seq 0 (List.length ADJECTIVES)) /\
  In (Z.to_nat (noun_draw a)) (seq 0 (List.length NOUNS)).
Proof.
  intros [[Hi Hi'] [Hj Hj']]. split; [| split].
  - unfold candidate, drawing. simpl adjective_draw. simpl noun_draw.
    now rewrite !Z2Nat.id.
  - apply in_seq. lia.
  - apply in_seq. lia.
Qed.

(** X14.  Draws within the two word lists that differ give names that
    differ: the generator has 400 distinct base names. *)
Theorem candidate_injective (a b : Attempt) :
  in_range a -> in_range b ->
  candidate a = candidate b ->
  adjective_draw a = adjective_draw b /\ noun_draw a = noun_draw b.
Proof.
  intros Ha Hb Heq.
  destruct (candidate_drawing a Ha) as (Ea & Hia & Hja).
  destruct (candidate_drawing b Hb) as (Eb & Hib & Hjb).
  rewrite Ea, Eb in Heq.
  pose proof names_apart_holds as H. unfold names_apart in H.
  rewrite forallb_forall in H. specialize (H _ Hia).
  rewrite forallb_forall in H. specialize (H _ Hja).
  rewrite forallb_forall in H. specialize (H _ Hib).
  rewrite forallb_forall in H. specialize (H _ Hjb).
  apply String.eqb_eq in Heq. rewrite Heq in H. simpl in H.
  apply andb_true_iff in H. destruct H as [Hi Hj].
  apply Nat.eqb_eq in Hi, Hj.
  destruct Ha as [[? ?] [? ?]], Hb as [[? ?] [? ?]]. split; lia.
Qed.

(** * Properties of the routes *)

Section Routes.

Context {W : Type}.
Context {explorer : IFileSystemExplorer W}.
Context {manipulator : IFileSystemManipulator W}.
Context {random : IRandomProvider W}.
Variable path_join : string -> string -> string.

(** X15.  [GET /api/files]: without a path (or with an empty one) the
    answer is 400 and the engine is not touched; with a path the explorer
    lists, the answer is 200 with that path, the listing and an empty
    selection; with a path the explorer rejects, the answer is 404 with the
    explorer's message. *)
Theorem get_files_responses (dir : string) (m : Machine W) :
  dir <> "" ->
  get_files None m
  = (Returns {| status := 400; body := ErrorBody "Le paramètre 'path' est requis." |}, m) /\
  get_files (Some "") m
  = (Returns {| status := 400; body := ErrorBody "Le paramètre 'path' est requis." |}, m) /\
  (forall listed w1,
     explorer_listEntries dir (world m) = (Ok listed, w1) ->
     get_files (Some dir) m
     = (Returns {| status := 200;
                   body := StateBody {| state_currentDirectory := Some dir;
                                        state_entries := listed;
                                        state_selected := [] |} |},
        {| this := {| currentDirectory := Some dir; entries := listed;
                      selectedEntries := [] |};
           world := w1;
           calls := calls m ++ [ListEntriesCall dir (Ok listed)] |})) /\
  (forall message w1,
     explorer_listEntries dir (world m) = (Fails message, w1) ->
     exists m',
       get_files (Some dir) m
       = (Returns {| status := 404; body := ErrorBody message |}, m') /\
       entries (this m') = entries (this m) /\
       selectedEntries (this m') = selectedEntries (this m)).
Proof.
  intros Hdir. split; [reflexivity | split; [reflexivity | split]].
  - intros listed w1 Hlist. destruct dir as [| c rest]; [congruence |].
    unfold get_files, listEntries, call_listEntries, currentState, respond,
      getCurrentDirectory, getEntries, getSelectedEntries.
    cbv beta iota delta [bind get_this set_this ret invoke try_catch falsy field]. simpl.
    rewrite Hlist. reflexivity.
  - intros message w1 Hlist. destruct dir as [| c rest]; [congruence |].
    unfold get_files, listEntries, call_listEntries, currentState, respond,
      getCurrentDirectory, getEntries, getSelectedEntries.
    cbv beta iota delta [bind get_this set_this ret invoke try_catch falsy field]. simpl.
    rewrite Hlist. simpl. eexists. split; [reflexivity | split; reflexivity].
Qed.

(** A [try] whose [catch] answers never throws. *)
Lemma caught_never_throws {A} (c : M W A) (code : nat) (b : Thrown -> Body)
    (k : A -> M W Response) (m : Machine W) (e : Thrown) :
  fst (try_catch (bind c k) (fun e0 => respond code (b e0)) m) <> Throws e.
Proof.
  unfold try_catch, bind.
  destruct (c m) as [[a | e0 |] m1]; simpl; try discriminate.
  destruct (k a m1) as [[r | e1 |] m2]; simpl; discriminate.
Qed.

(** X16.  No route lets an exception out: whatever the request and whatever
    the collaborators do, a handler that ends ends with a response. *)
Theorem handlers_never_throw fuel (request : HttpRequest) (m : Machine W) (e : Thrown) :
  fst (handle path_join fuel request m) <> Throws e.
Proof.
  destruct request as [path | | name | name | | | destination | destination |]; simpl.
  - unfold get_files. destruct (falsy path); [simpl; discriminate |].
    apply caught_never_throws.
  - discriminate.
  - unfold post_select. destruct (falsy name); [simpl; discriminate |].
    apply caught_never_throws.
  - unfold post_deselect. destruct (falsy name); simpl; discriminate.
  - discriminate.
  - discriminate.
  - apply caught_never_throws.
  - apply caught_never_throws.
  - apply caught_never_throws.
Qed.

(** X17.  [POST /api/files/select]: without a name the answer is 400; with
    a name that is not an entry it is 400 with the not-found message, and in
    both cases nothing changed; with a name of the entries it is 200 with
    the selection, which now holds the name. *)
Theorem post_select_responses (name : string) (m : Machine W) :
  name <> "" ->
  post_select None m
  = (Returns {| status := 400; body := ErrorBody "Le champ 'name' est requis." |}, m) /\
  (~ In name (entries (this m)) ->
   post_select (Some name) m
   = (Returns {| status := 400; body := ErrorBody (message_of (EntryNotFound name)) |}, m)) /\
  (In name (entries (this m)) ->
   exists sel,
     post_select (Some name) m
     = (Returns {| status := 200; body := SelectedBody sel |},
        {| this := with_selectedEntries sel (this m);
           world := world m; calls := calls m |}) /\
     In name sel).
Proof.
  intros Hname. destruct name as [| c rest]; [congruence |].
  split; [reflexivity | split].
  - intros Hx. apply includes_false in Hx.
    unfold post_select, select, respond, getSelectedEntries.
    cbv beta iota delta [bind get_this set_this ret throw try_catch falsy field]. simpl.
    rewrite Hx. reflexivity.
  - intros Hx. apply includes_In in Hx.
    exists (set_add (selectedEntries (this m)) (String c rest)). split.
    + unfold post_select, select, respond, getSelectedEntries.
      cbv beta iota delta [bind get_this set_this ret throw try_catch falsy field]. simpl.
      rewrite Hx. reflexivity.
    + apply In_set_add. now right.
Qed.

(** X18.  The three operation routes answer 400 with the nothing-selected
    message when nothing is selected, and the engine and its collaborators
    are not touched. *)
Theorem operation_routes_need_selection fuel destination (m : Machine W) :
  selectedEntries (this m) = [] ->
  post_copy path_join fuel destination m
  = (Returns {| status := 400; body := ErrorBody "Aucun fichier sélectionné." |}, m) /\
  post_move path_join fuel destination m
  = (Returns {| status := 400; body := ErrorBody "Aucun fichier sélectionné." |}, m) /\
  post_delete path_join m
  = (Returns {| status := 400; body := ErrorBody "Aucun fichier sélectionné." |}, m).
Proof.
  intros Hsel. unfold post_copy, post_move, post_delete, try_catch, bind.
  rewrite copySelection_unfold, moveSelection_unfold, deleteSelection_unfold, Hsel.
  repeat split.
Qed.

(** X19.  [POST /api/files/delete] in a reachable state always answers:
    400 when nothing is selected; otherwise 200 with no destination path,
    the errors of the deletion and the state after it, in which the names
    still selected are the names of the errors. *)
Theorem post_delete_responses (m : Machine W) :
  reachable path_join m ->
  exists response m',
    post_delete path_join m = (Returns response, m') /\
    ((selectedEntries (this m) = [] /\ status response = 400) \/
     (selectedEntries (this m) <> [] /\
      exists errs state,
        response = {| status := 200; body := ResultBody None errs state |} /\
        state_currentDirectory state = currentDirectory (this m) /\
        state_entries state = entries (this m') /\
        state_selected state = map fileName errs)).
Proof.
  intros Hm.
  destruct (selectedEntries (this m)) as [| x sel] eqn:Hsel.
  - exists {| status := 400; body := ErrorBody (message_of NothingSelected) |}, m.
    split; [| left; split; reflexivity].
    unfold post_delete, try_catch, bind.
    rewrite deleteSelection_unfold, Hsel. reflexivity.
  - assert (Hne : selectedEntries (this m) <> []) by (rewrite Hsel; discriminate).
    destruct (reachable_ready path_join m Hm Hne) as [[Hnd _] [d Hd]].
    destruct (deleteSelection_run path_join d m Hd Hne) as (att & w' & Hatt & Hrun).
    eexists _, _. split.
    + unfold post_delete, try_catch, bind. rewrite Hrun. reflexivity.
    + right. split; [discriminate |]. eexists _, _. split; [reflexivity |]. simpl.
      split; [now symmetry | split; [reflexivity |]].
      rewrite <- Hatt. apply failed_names. now rewrite Hatt.
Qed.

End Routes.

(** ** The scenarios of the unit tests *)

(** Three entries, two selected and deleted: no error, one entry left,
    nothing selected. *)
Example delete_two_of_three :
  (listEntries DIR ;; select "a.txt" ;; select "b.txt" ;; deleteSelection slash_join)
    (boot (mock_directory ["a.txt"; "b.txt"; "c.txt"] [] [] []))
  = (Returns {| destinationPath := None; errors := [] |},
     {| this := {| currentDirectory := Some DIR;
                   entries := ["c.txt"];
                   selectedEntries := [] |};
        world := mock_directory ["a.txt"; "b.txt"; "c.txt"] [] [] [];
        calls := [ListEntriesCall DIR (Ok ["a.txt"; "b.txt"; "c.txt"]);
                  DeleteCall "/test/dir/a.txt" (Ok tt);
                  DeleteCall "/test/dir/b.txt" (Ok tt)] |}).
Proof. reflexivity. Qed.

(** A move in which the primitive throws on [fail.txt]. *)
Example move_with_one_failure :
  (listEntries DIR ;; selectAll ;; moveSelection slash_join 0 (Some "/dest"))
    (boot (mock_directory ["ok.txt"; "fail.txt"] [] [] ["/test/dir/fail.txt"]))
  = (Returns {| destinationPath := Some "/dest";
                errors := [{| fileName := "fail.txt";
                              errorMessage := "Permission refusée";
                              operationType := move |}] |},
     {| this := {| currentDirectory := Some DIR;
                   entries := ["fail.txt"];
                   selectedEntries := ["fail.txt"] |};
        world := mock_directory ["ok.txt"; "fail.txt"] [] [] ["/test/dir/fail.txt"];
        calls := [ListEntriesCall DIR (Ok ["ok.txt"; "fail.txt"]);
                  CreateDirectoryCall "/dest" (Ok tt);
                  MoveCall "/test/dir/ok.txt" "/dest/ok.txt" (Ok tt);
                  MoveCall "/test/dir/fail.txt" "/dest/fail.txt"
                           (Fails "Permission refusée")] |}).
Proof. reflexivity. Qed.

(** Selecting twice selects once; selecting an unknown name throws. *)
Example select_twice_then_unknown :
  (listEntries DIR ;; select "a.txt" ;; select "a.txt" ;; select "inconnu.txt")
    (boot (mock_directory ["a.txt"] [] [] []))
  = (Throws (EntryNotFound "inconnu.txt"),
     {| this := {| currentDirectory := Some DIR;
                   entries := ["a.txt"];
                   selectedEntries := ["a.txt"] |};
        world := mock_directory ["a.txt"] [] [] [];
        calls := [ListEntriesCall DIR (Ok ["a.txt"])] |}).
Proof. reflexivity. Qed.

(** A numbering loop that is given no fuel does not return. *)
Example numbering_without_fuel :
  fst (resolveDestination slash_join 0 None
         (one_selected (repeat true 11) (repeat 5%Z 20)))
  = Diverges.
Proof. reflexivity. Qed.

(** ** The claims on the test doubles *)

Lemma partial_failure_consistent : consistent (this partial_failure).
Proof.
  split; simpl.
  - repeat constructor; simpl; intuition discriminate.
  - apply incl_refl.
Qed.


Lemma loaded_reachable : reachable slash_join loaded.
Proof. unfold loaded. do 2 apply reachable_perform. apply reachable_new. Qed.

Lemma selection_within_entries_witness :
  reachable slash_join loaded /\
  incl (selectedEntries (this loaded)) (entries (this loaded)) /\
  (forall fuel r,
     incl (selectedEntries (this (snd (perform slash_join fuel r loaded))))
          (entries (this (snd (perform slash_join fuel r loaded))))).
Proof.
  split; [exact loaded_reachable |].
  exact (selection_within_entries slash_join loaded loaded_reachable).
Defined.

Lemma empty_selection_rejected_witness :
  selectedEntries (this (boot mock_disk)) = [] /\
  copySelection slash_join 0 (Some "/dest") (boot mock_disk)
  = (Throws NothingSelected, boot mock_disk) /\
  moveSelection slash_join 0 None (boot mock_disk)
  = (Throws NothingSelected, boot mock_disk) /\
  deleteSelection slash_join (boot mock_disk) = (Throws NothingSelected, boot mock_disk).
Proof.
  split; [reflexivity |].
  destruct (empty_selection_rejected slash_join 0 (Some "/dest") (boot mock_disk) eq_refl)
    as (Hcopy & _ & Hdelete).
  destruct (empty_selection_rejected slash_join 0 None (boot mock_disk) eq_refl)
    as (_ & Hmove & _).
  repeat split; assumption.
Defined.


Lemma listEntries_loads_witness :
  explorer_listEntries DIR (world partial_failure)
  = (Ok ["ok.txt"; "fail.txt"], world partial_failure) /\
  listEntries DIR partial_failure
  = (Returns ["ok.txt"; "fail.txt"],
     {| this := {| currentDirectory := Some DIR;
                   entries := ["ok.txt"; "fail.txt"];
                   selectedEntries := [] |};
        world := world partial_failure;
        calls := calls partial_failure
                 ++ [ListEntriesCall DIR (Ok ["ok.txt"; "fail.txt"])] |}).
Proof.
  split; [reflexivity |].
  exact (listEntries_loads DIR ["ok.txt"; "fail.txt"] (world partial_failure)
           partial_failure eq_refl).
Defined.

Lemma current_directory_never_null_witness :
  reachable slash_join loaded /\
  (selectedEntries (this loaded) <> [] -> currentDirectory (this loaded) <> None) /\
  (forall fuel r, fst (perform slash_join fuel r loaded) <> Throws NullDirectory) /\
  (forall fuel destinationPath,
     selectedEntries (this loaded) <> [] ->
     fst (resolveDestination slash_join fuel destinationPath loaded) <> Throws NullDirectory).
Proof.
  split; [exact loaded_reachable |].
  exact (current_directory_never_null slash_join loaded loaded_reachable).
Defined.

Lemma explicit_destination_kept_witness :
  "/dest" <> "" /\
  resolveDestination slash_join 0 (Some "/dest") partial_failure
  = (Returns "/dest", partial_failure) /\
  (exists result m' new,
     copySelection slash_join 0 (Some "/dest") partial_failure = (Returns result, m') /\
     destinationPath result = Some "/dest" /\
     calls m' = calls partial_failure ++ new /\
     Forall (fun c => is_exists_call c = false /\ is_nextInt_call c = false) new) /\
  (exists result m' new,
     moveSelection slash_join 0 (Some "/dest") partial_failure = (Returns result, m') /\
     destinationPath result = Some "/dest" /\
     calls m' = calls partial_failure ++ new /\
     Forall (fun c => is_exists_call c = false /\ is_nextInt_call c = false) new).
Proof.
  assert (Hgiven : "/dest" <> "") by discriminate.
  destruct (explicit_destination_kept slash_join "/dest" 0 partial_failure Hgiven)
    as [Hresolve Hbatch].
  assert (Hsel : selectedEntries (this partial_failure) <> []) by discriminate.
  destruct (Hbatch DIR (world partial_failure) eq_refl Hsel eq_refl) as [Hcopy Hmove].
  repeat split; assumption.
Defined.

(** The test doubles answer a script of attempts when their queues start
    with the answers of that script. *)
Lemma mock_attempts_answer (d : string) (names refused : list string)
    (script : list Attempt) (taken : list bool) (draws : list Z) :
  attempts_answer slash_join d
    (mock_directory names (map collides script ++ taken)
       (flat_map (fun a => [adjective_draw a; noun_draw a]) script ++ draws) refused)
    script
    (mock_directory names taken draws refused).
Proof.
  induction script as [| a script IH]; [apply attempts_done |].
  eapply attempts_next; [| | | exact IH]; reflexivity.
Qed.

(** The unit test of the retry: the first candidate exists, the second
    does not. *)
Lemma retry_answers :
  attempts_answer slash_join DIR (world (one_selected [true; false] [0; 0; 1; 1]%Z))
    [ {| adjective_draw := 0; noun_draw := 0; collides := true |};
      {| adjective_draw := 1; noun_draw := 1; collides := false |} ]
    (mock_directory ["a.txt"] [] [] []).
Proof.
  exact (mock_attempts_answer DIR ["a.txt"] []
           [ {| adjective_draw := 0; noun_draw := 0; collides := true |};
             {| adjective_draw := 1; noun_draw := 1; collides := false |} ] [] []).
Qed.

Lemma generated_destination_first_free_witness :
  currentDirectory (this (one_selected [true; false] [0; 0; 1; 1]%Z)) = Some DIR /\
  resolveDestination slash_join 0 None (one_selected [true; false] [0; 0; 1; 1]%Z)
  = (Returns "/test/dir/petit-lune",
     {| this := this (one_selected [true; false] [0; 0; 1; 1]%Z);
        world := mock_directory ["a.txt"] [] [] [];
        calls := [NextIntCall 20 (Ok 0%Z); NextIntCall 20 (Ok 0%Z);
                  ExistsCall "/test/dir/grand-soleil" (Ok true);
                  NextIntCall 20 (Ok 1%Z); NextIntCall 20 (Ok 1%Z);
                  ExistsCall "/test/dir/petit-lune" (Ok false)] |}) /\
  (exists m' new,
     resolveDestination slash_join 0 None (one_selected [true; false] [0; 0; 1; 1]%Z)
     = (Returns "/test/dir/petit-lune", m') /\
     calls m' = new /\
     List.length (filter is_exists_call new) = 2) /\
  (exists result m',
     copySelection slash_join 0 None (one_selected [] [2; 5]%Z) = (Returns result, m') /\
     destinationPath result = Some "/test/dir/rouge-foret").
Proof.
  assert (Hd : forall taken draws, currentDirectory (this (one_selected taken draws)) = Some DIR)
    by reflexivity.
  destruct (generated_destination_first_free slash_join DIR
              (one_selected [true; false] [0; 0; 1; 1]%Z) (Hd _ _))
    as (Hgeneral & _ & Hretry).
  destruct (generated_destination_first_free slash_join DIR
              (one_selected [] [2; 5]%Z) (Hd _ _))
    as (_ & Hexample & _).
  split; [apply Hd | split; [| split]].
  - refine (proj1 (Hgeneral 0
      [ {| adjective_draw := 0; noun_draw := 0; collides := true |} ]
      {| adjective_draw := 1; noun_draw := 1; collides := false |}
      (mock_directory ["a.txt"] [] [] []) _ eq_refl _ retry_answers)).
    + constructor; [reflexivity | constructor].
    + simpl. lia.
  - exact (Hretry 0
      {| adjective_draw := 0; noun_draw := 0; collides := true |}
      {| adjective_draw := 1; noun_draw := 1; collides := false |}
      (mock_directory ["a.txt"] [] [] []) eq_refl eq_refl retry_answers).
  - refine (Hexample 0 _ _ _ _ _ eq_refl eq_refl eq_refl eq_refl).
    discriminate.
Defined.

Lemma ten_collisions_answers :
  attempts_answer slash_join DIR
    (world (one_selected (repeat true 11) (repeat 3%Z 20))) ten_collisions
    (mock_directory ["a.txt"] [true] [] []).
Proof.
  exact (mock_attempts_answer DIR ["a.txt"] [] ten_collisions [true] []).
Qed.

Lemma numbering_after_ten_collisions_witness :
  currentDirectory (this (one_selected (repeat true 11) (repeat 3%Z 20))) = Some DIR /\
  List.length ten_collisions = 10 /\
  Forall (fun b => collides b = true) ten_collisions /\
  1 < 2 /\
  (forall a, nth_error ten_collisions 9 = Some a ->
             last_candidate ten_collisions "" = candidate a) /\
  resolveDestination slash_join 2 None (one_selected (repeat true 11) (repeat 3%Z 20))
  = (Returns "/test/dir/bleu-montagne-2",
     {| this := this (one_selected (repeat true 11) (repeat 3%Z 20));
        world := mock_directory ["a.txt"] [] [] [];
        calls := attempt_calls slash_join DIR ten_collisions
                 ++ [ExistsCall "/test/dir/bleu-montagne-1" (Ok true);
                     ExistsCall "/test/dir/bleu-montagne-2" (Ok false)] |}).
Proof.
  assert (Hall : Forall (fun b => collides b = true) ten_collisions).
  { unfold ten_collisions. apply Forall_forall. intros b Hb.
    apply repeat_spec in Hb. now subst. }
  assert (Hprobes : probes_answer slash_join DIR (last_candidate ten_collisions "") 1
                      (mock_directory ["a.txt"] [true] [] [])
                      (repeat true 1 ++ [false])
                      (mock_directory ["a.txt"] [] [] [])).
  { simpl. eapply probes_next; [reflexivity |].
    eapply probes_next; [reflexivity |]. apply probes_done. }
  destruct (numbering_after_ten_collisions slash_join DIR ten_collisions 1 2
              (mock_directory ["a.txt"] [true] [] [])
              (mock_directory ["a.txt"] [] [] [])
              (one_selected (repeat true 11) (repeat 3%Z 20))
              eq_refl eq_refl Hall ten_collisions_answers Hprobes (Nat.lt_succ_diag_r 1))
    as [Hbase Hrun].
  repeat split; try assumption; try lia.
Defined.

(** ** The further properties on the test doubles *)

Lemma select_unknown_rejected_witness :
  ~ In "inconnu.txt" (entries (this partial_failure)) /\
  select "inconnu.txt" partial_failure
  = (Throws (EntryNotFound "inconnu.txt"), partial_failure).
Proof.
  assert (H : ~ In "inconnu.txt" (entries (this partial_failure)))
    by (simpl; intuition discriminate).
  split; [exact H | exact (select_unknown_rejected "inconnu.txt" partial_failure H)].
Defined.

Lemma select_listed_witness :
  In "b.txt" (entries (this (snd (listEntries DIR (boot mock_disk))))) /\
  exists sel,
    select "b.txt" (snd (listEntries DIR (boot mock_disk)))
    = (Returns tt,
       {| this := with_selectedEntries sel (this (snd (listEntries DIR (boot mock_disk))));
          world := world (snd (listEntries DIR (boot mock_disk)));
          calls := calls (snd (listEntries DIR (boot mock_disk))) |}) /\
    includes sel "b.txt" = true /\
    (forall other, other <> "b.txt" ->
       includes sel other
       = includes (selectedEntries (this (snd (listEntries DIR (boot mock_disk))))) other).
Proof.
  assert (H : In "b.txt" (entries (this (snd (listEntries DIR (boot mock_disk))))))
    by (simpl; tauto).
  split; [exact H |].
  exact (select_listed "b.txt" (snd (listEntries DIR (boot mock_disk))) H).
Defined.

Lemma select_idempotent_witness :
  In "ok.txt" (entries (this partial_failure)) /\
  In "ok.txt" (selectedEntries (this partial_failure)) /\
  select "ok.txt" partial_failure = (Returns tt, partial_failure) /\
  select "ok.txt" (snd (select "ok.txt" partial_failure))
  = (fst (select "ok.txt" partial_failure), snd (select "ok.txt" partial_failure)).
Proof.
  assert (H : In "ok.txt" (entries (this partial_failure))) by (simpl; tauto).
  assert (H' : In "ok.txt" (selectedEntries (this partial_failure))) by (simpl; tauto).
  destruct (select_idempotent "ok.txt" partial_failure) as [Hagain Htwice].
  split; [exact H | split; [exact H' | split; [exact (Hagain H H') | exact Htwice]]].
Defined.

Lemma deselect_removes_witness :
  ~ In "c.txt" (selectedEntries (this partial_failure)) /\
  deselect "c.txt" partial_failure = (Returns tt, partial_failure).
Proof.
  assert (H : ~ In "c.txt" (selectedEntries (this partial_failure)))
    by (simpl; intuition discriminate).
  split; [exact H |].
  exact (proj2 (deselect_removes "c.txt" partial_failure) H).
Defined.

Lemma select_then_deselect_witness :
  In "b.txt" (entries (this (snd (listEntries DIR (boot mock_disk))))) /\
  ~ In "b.txt" (selectedEntries (this (snd (listEntries DIR (boot mock_disk))))) /\
  (select "b.txt" ;; deselect "b.txt") (snd (listEntries DIR (boot mock_disk)))
  = (Returns tt, snd (listEntries DIR (boot mock_disk))).
Proof.
  assert (H : In "b.txt" (entries (this (snd (listEntries DIR (boot mock_disk))))))
    by (simpl; tauto).
  assert (H' : ~ In "b.txt" (selectedEntries (this (snd (listEntries DIR (boot mock_disk))))))
    by (simpl; tauto).
  split; [exact H | split; [exact H' |]].
  exact (select_then_deselect "b.txt" (snd (listEntries DIR (boot mock_disk))) H H').
Defined.

Lemma load_then_selectAll_witness :
  explorer_listEntries DIR (world (boot mock_disk)) = (Ok ["a.txt"; "b.txt"], mock_disk) /\
  NoDup ["a.txt"; "b.txt"] /\
  (listEntries DIR ;; selectAll ;; getSelectedEntries) (boot mock_disk)
  = (Returns ["a.txt"; "b.txt"],
     {| this := {| currentDirectory := Some DIR;
                   entries := ["a.txt"; "b.txt"];
                   selectedEntries := ["a.txt"; "b.txt"] |};
        world := mock_disk;
        calls := calls (boot mock_disk)
                 ++ [ListEntriesCall DIR (Ok ["a.txt"; "b.txt"])] |}).
Proof.
  assert (Hnd : NoDup ["a.txt"; "b.txt"])
    by (repeat constructor; simpl; intuition discriminate).
  split; [reflexivity | split; [exact Hnd |]].
  exact (load_then_selectAll DIR ["a.txt"; "b.txt"] mock_disk (boot mock_disk) eq_refl Hnd).
Defined.

Lemma selection_left_is_errors_witness :
  currentDirectory (this partial_failure) = Some DIR /\
  selectedEntries (this partial_failure) <> [] /\
  NoDup (selectedEntries (this partial_failure)) /\
  (exists result m',
     deleteSelection slash_join partial_failure = (Returns result, m') /\
     selectedEntries (this m') = map fileName (errors result)) /\
  (exists result m',
     copySelection slash_join 0 (Some "/dest") partial_failure = (Returns result, m') /\
     selectedEntries (this m') = map fileName (errors result)) /\
  (exists result m',
     moveSelection slash_join 0 (Some "/dest") partial_failure = (Returns result, m') /\
     selectedEntries (this m') = map fileName (errors result)).
Proof.
  assert (Hd : currentDirectory (this partial_failure) = Some DIR) by reflexivity.
  assert (Hsel : selectedEntries (this partial_failure) <> []) by discriminate.
  destruct partial_failure_consistent as [Hnd _].
  destruct (selection_left_is_errors slash_join DIR partial_failure Hd Hsel Hnd)
    as [Hdelete Hbatch].
  destruct (Hbatch 0 (Some "/dest") "/dest" _ eq_refl) as [Hcopy Hmove].
  split; [exact Hd | split; [exact Hsel | split; [exact Hnd |]]].
  split; [exact Hdelete | split; [exact Hcopy | exact Hmove]].
Defined.

Lemma deleteSelection_retry_witness :
  currentDirectory (this partial_failure) = Some DIR /\
  NoDup (selectedEntries (this partial_failure)) /\
  (exists first m1,
     deleteSelection slash_join partial_failure = (Returns first, m1) /\
     errors first <> [] /\
     exists att second m2,
       deleteSelection slash_join m1 = (Returns second, m2) /\
       map fst att = map fileName (errors first) /\
       calls m2 = calls m1 ++ map (fun p => DeleteCall (slash_join DIR (fst p)) (snd p)) att).
Proof.
  assert (Hd : currentDirectory (this partial_failure) = Some DIR) by reflexivity.
  destruct partial_failure_consistent as [Hnd _].
  split; [exact Hd | split; [exact Hnd |]].
  eexists _, _. split; [reflexivity |].
  assert (Hne : errors {| destinationPath := None;
                          errors := [{| fileName := "fail.txt";
                                        errorMessage := "Permission refusée";
                                        operationType := delete |}] |} <> [])
    by discriminate.
  split; [exact Hne |].
  exact (proj2 (deleteSelection_retry slash_join DIR partial_failure _ _ Hd Hnd eq_refl) Hne).
Defined.

Lemma createDirectory_failure_aborts_witness :
  selectedEntries (this read_only) <> [] /\
  resolveDestination slash_join 0 (Some "/dest") read_only = (Returns "/dest", read_only) /\
  manipulator_createDirectory "/dest" (world read_only)
  = (Fails "EACCES: permission denied", world read_only) /\
  copySelection slash_join 0 (Some "/dest") read_only
  = (Throws (Raised "EACCES: permission denied"),
     {| this := this read_only; world := world read_only;
        calls := calls read_only
                 ++ [CreateDirectoryCall "/dest" (Fails "EACCES: permission denied")] |}) /\
  moveSelection slash_join 0 (Some "/dest") read_only
  = (Throws (Raised "EACCES: permission denied"),
     {| this := this read_only; world := world read_only;
        calls := calls read_only
                 ++ [CreateDirectoryCall "/dest" (Fails "EACCES: permission denied")] |}).
Proof.
  assert (Hsel : selectedEntries (this read_only) <> []) by discriminate.
  assert (Hres : resolveDestination slash_join 0 (Some "/dest") read_only
                 = (Returns "/dest", read_only)) by reflexivity.
  assert (Hcreate : manipulator_createDirectory "/dest" (world read_only)
                    = (Fails "EACCES: permission denied", world read_only)) by reflexivity.
  destruct (createDirectory_failure_aborts slash_join 0 (Some "/dest") "/dest"
              "EACCES: permission denied" (world read_only) read_only read_only
              Hsel Hres Hcreate) as [Hcopy Hmove].
  split; [exact Hsel | split; [exact Hres | split; [exact Hcreate |]]].
  split; [exact Hcopy | exact Hmove].
Defined.

Lemma resolveDestination_never_ends_witness :
  (forall filePath (w : unit), fst (explorer_exists filePath w) = Ok true) /\
  (forall max (w : unit), exists i, fst (random_nextInt max w) = Ok i) /\
  currentDirectory (this crowded) = Some "/full" /\
  forall fuel,
    fst (resolveDestination slash_join fuel None crowded) = Diverges /\
    (selectedEntries (this crowded) <> [] ->
     fst (copySelection slash_join fuel None crowded) = Diverges /\
     fst (moveSelection slash_join fuel None crowded) = Diverges).
Proof.
  assert (Hexists : forall filePath (w : unit), fst (explorer_exists filePath w) = Ok true)
    by reflexivity.
  assert (Hdraw : forall max (w : unit), exists i, fst (random_nextInt max w) = Ok i)
    by (intros max w; exists 7%Z; reflexivity).
  split; [exact Hexists | split; [exact Hdraw | split; [reflexivity |]]].
  exact (resolveDestination_never_ends slash_join "/full" crowded Hexists Hdraw eq_refl).
Defined.

Lemma candidate_injective_witness :
  in_range {| adjective_draw := 2; noun_draw := 5; collides := true |} /\
  in_range {| adjective_draw := 2; noun_draw := 5; collides := false |} /\
  candidate {| adjective_draw := 2; noun_draw := 5; collides := true |}
  = candidate {| adjective_draw := 2; noun_draw := 5; collides := false |} /\
  adjective_draw {| adjective_draw := 2; noun_draw := 5; collides := true |}
  = adjective_draw {| adjective_draw := 2; noun_draw := 5; collides := false |} /\
  noun_draw {| adjective_draw := 2; noun_draw := 5; collides := true |}
  = noun_draw {| adjective_draw := 2; noun_draw := 5; collides := false |}.
Proof.
  assert (Ha : in_range {| adjective_draw := 2; noun_draw := 5; collides := true |})
    by (unfold in_range; simpl; lia).
  assert (Hb : in_range {| adjective_draw := 2; noun_draw := 5; collides := false |})
    by (unfold in_range; simpl; lia).
  split; [exact Ha | split; [exact Hb | split; [reflexivity |]]].
  exact (candidate_injective _ _ Ha Hb eq_refl).
Defined.

Lemma get_files_responses_witness :
  DIR <> "" /\
  "/missing" <> "" /\
  get_files (Some DIR) (boot mock_disk)
  = (Returns {| status := 200;
                body := StateBody {| state_currentDirectory := Some DIR;
                                     state_entries := ["a.txt"; "b.txt"];
                                     state_selected := [] |} |},
     {| this := {| currentDirectory := Some DIR; entries := ["a.txt"; "b.txt"];
                   selectedEntries := [] |};
        world := mock_disk;
        calls := calls (boot mock_disk) ++ [ListEntriesCall DIR (Ok ["a.txt"; "b.txt"])] |}) /\
  (exists m',
     get_files (Some "/missing") (boot mock_disk)
     = (Returns {| status := 404;
                   body := ErrorBody "ENOENT: no such file or directory" |}, m') /\
     entries (this m') = entries (this (boot mock_disk)) /\
     selectedEntries (this m') = selectedEntries (this (boot mock_disk))).
Proof.
  assert (H1 : DIR <> "") by discriminate.
  assert (H2 : "/missing" <> "") by discriminate.
  destruct (get_files_responses DIR (boot mock_disk) H1) as (_ & _ & Hok & _).
  destruct (get_files_responses "/missing" (boot mock_disk) H2) as (_ & _ & _ & Hfail).
  split; [exact H1 | split; [exact H2 | split]].
  - exact (Hok ["a.txt"; "b.txt"] mock_disk eq_refl).
  - exact (Hfail "ENOENT: no such file or directory" mock_disk eq_refl).
Defined.

Lemma post_select_responses_witness :
  "ok.txt" <> "" /\
  "inconnu.txt" <> "" /\
  ~ In "inconnu.txt" (entries (this partial_failure)) /\
  In "ok.txt" (entries (this partial_failure)) /\
  post_select (Some "inconnu.txt") partial_failure
  = (Returns {| status := 400;
                body := ErrorBody (message_of (EntryNotFound "inconnu.txt")) |},
     partial_failure) /\
  (exists sel,
     post_select (Some "ok.txt") partial_failure
     = (Returns {| status := 200; body := SelectedBody sel |},
        {| this := with_selectedEntries sel (this partial_failure);
           world := world partial_failure; calls := calls partial_failure |}) /\
     In "ok.txt" sel).
Proof.
  assert (H1 : "ok.txt" <> "") by discriminate.
  assert (H2 : "inconnu.txt" <> "") by discriminate.
  assert (H3 : ~ In "inconnu.txt" (entries (this partial_failure)))
    by (simpl; intuition discriminate).
  assert (H4 : In "ok.txt" (entries (this partial_failure))) by (simpl; tauto).
  destruct (post_select_responses "inconnu.txt" partial_failure H2) as (_ & Hunknown & _).
  destruct (post_select_responses "ok.txt" partial_failure H1) as (_ & _ & Hknown).
  split; [exact H1 | split; [exact H2 | split; [exact H3 | split; [exact H4 |]]]].
  split; [exact (Hunknown H3) | exact (Hknown H4)].
Defined.

Lemma operation_routes_need_selection_witness :
  selectedEntries (this (boot mock_disk)) = [] /\
  post_copy slash_join 0 (Some "/dest") (boot mock_disk)
  = (Returns {| status := 400; body := ErrorBody "Aucun fichier sélectionné." |},
     boot mock_disk) /\
  post_move slash_join 0 (Some "/dest") (boot mock_disk)
  = (Returns {| status := 400; body := ErrorBody "Aucun fichier sélectionné." |},
     boot mock_disk) /\
  post_delete slash_join (boot mock_disk)
  = (Returns {| status := 400; body := ErrorBody "Aucun fichier sélectionné." |},
     boot mock_disk).
Proof.
  split; [reflexivity |].
  exact (operation_routes_need_selection slash_join 0 (Some "/dest") (boot mock_disk) eq_refl).
Defined.

Lemma post_delete_responses_witness :
  reachable slash_join loaded /\
  exists response m',
    post_delete slash_join loaded = (Returns response, m') /\
    ((selectedEntries (this loaded) = [] /\ status response = 400) \/
     (selectedEntries (this loaded) <> [] /\
      exists errs state,
        response = {| status := 200; body := ResultBody None errs state |} /\
        state_currentDirectory state = currentDirectory (this loaded) /\
        state_entries state = entries (this m') /\
        state_selected state = map fileName errs)).
Proof.
  split; [exact loaded_reachable |].
  exact (post_delete_responses slash_join loaded loaded_reachable).
Defined.

Lemma removal_spares_the_rest_witness :
  currentDirectory (this partial_failure) = Some DIR /\
  selectedEntries (this partial_failure) <> [] /\
  (exists result m',
     deleteSelection slash_join partial_failure = (Returns result, m') /\
     entries (this m')
     = filter (fun e => negb (includes (selectedEntries (this partial_failure)) e)
                        || includes (selectedEntries (this m')) e)
              (entries (this partial_failure))) /\
  (exists result m',
     moveSelection slash_join 0 (Some "/dest") partial_failure = (Returns result, m') /\
     entries (this m')
     = filter (fun e => negb (includes (selectedEntries (this partial_failure)) e)
                        || includes (selectedEntries (this m')) e)
              (entries (this partial_failure))).
Proof.
  assert (Hd : currentDirectory (this partial_failure) = Some DIR) by reflexivity.
  assert (Hsel : selectedEntries (this partial_failure) <> []) by discriminate.
  destruct (removal_spares_the_rest slash_join DIR partial_failure Hd Hsel)
    as [Hdelete Hmove].
  split; [exact Hd | split; [exact Hsel |]].
  split; [exact Hdelete | exact (Hmove 0 (Some "/dest") "/dest" _ eq_refl)].
Defined.

(** ** Where the code departs from the claims *)

(** C7.  A load that fails leaves the entries and the selection as they
    were and passes the explorer's error on, but the current directory is
    already the path that could not be listed: the assignment to
    [currentDirectory] comes before the explorer call. *)
Theorem failed_load_changes_currentDirectory :
  currentDirectory (this loaded) = Some DIR /\
  listEntries "/missing" loaded
  = (Throws (Raised "ENOENT: no such file or directory"),
     {| this := {| currentDirectory := Some "/missing";
                   entries := ["a.txt"; "b.txt"];
                   selectedEntries := ["a.txt"; "b.txt"] |};
        world := mock_disk;
        calls := calls loaded
                 ++ [ListEntriesCall "/missing"
                       (Fails "ENOENT: no such file or directory")] |}) /\
  this (snd (listEntries "/missing" loaded)) <> this loaded.
Proof.
  split; [reflexivity | split; [reflexivity |]].
  intros H. apply (f_equal currentDirectory) in H. simpl in H. discriminate.
Qed.

(** C2, as stated, fails for a manipulator that throws [null].  [ok.txt]
    is moved and filtered out of the entries; [fail.txt] throws [null]; the
    [catch] block throws on [e.message]; the method is left before the
    selection is pruned.  The getters then show [ok.txt] selected and not
    among the entries. *)
Lemma null_throw_breaks_inclusion :
  (listEntries DIR ;; selectAll ;; moveSelection_throwing slash_join 0 (Some "/dest"))
    (boot (mock_directory ["ok.txt"; "fail.txt"] [] [] ["/test/dir/fail.txt"]))
  = (Throws (Raised (unreadable null)),
     {| this := {| currentDirectory := Some DIR;
                   entries := ["fail.txt"];
                   selectedEntries := ["ok.txt"; "fail.txt"] |};
        world := mock_directory ["ok.txt"; "fail.txt"] [] [] ["/test/dir/fail.txt"];
        calls := [ListEntriesCall DIR (Ok ["ok.txt"; "fail.txt"]);
                  CreateDirectoryCall "/dest" (Ok tt);
                  MoveCall "/test/dir/ok.txt" "/dest/ok.txt" (Ok tt);
                  NullishThrow move ["/test/dir/fail.txt"; "/dest/fail.txt"] null] |}) /\
  getEntries cut_short = (Returns ["fail.txt"], cut_short) /\
  getSelectedEntries cut_short = (Returns ["ok.txt"; "fail.txt"], cut_short) /\
  ~ incl (selectedEntries (this cut_short)) (entries (this cut_short)).
Proof.
  split; [reflexivity | split; [reflexivity | split; [reflexivity |]]].
  intros H. specialize (H "ok.txt" (or_introl eq_refl)).
  simpl in H. destruct H as [H | []]. discriminate.
Qed.

(** C8, as stated, fails on the empty string: [if (destinationPath)] takes
    it for a destination left out, so a name is drawn and checked. *)
Lemma empty_destination_is_generated :
  copySelection slash_join 0 (Some "") (one_selected [] [])
  = (Returns {| destinationPath := Some "/test/dir/grand-soleil"; errors := [] |},
     {| this := {| currentDirectory := Some DIR;
                   entries := ["a.txt"];
                   selectedEntries := [] |};
        world := mock_directory ["a.txt"] [] [] [];
        calls := [NextIntCall 20 (Ok 0%Z); NextIntCall 20 (Ok 0%Z);
                  ExistsCall "/test/dir/grand-soleil" (Ok false);
                  CreateDirectoryCall "/test/dir/grand-soleil" (Ok tt);
                  CopyCall "/test/dir/a.txt" "/test/dir/grand-soleil/a.txt" (Ok tt)] |}) /\
  resolveDestination slash_join 0 (Some "") (one_selected [] [])
  <> (Returns "", one_selected [] []).
Proof.
  split; [reflexivity |]. intros H. discriminate H.
Qed.
